(** * Bounds-checked string scanning (safestringlib): strstr_s, strcasestr_s,
      strcspn_s and strisuppercase_s

    A shallow embedding of the four C functions of [src/safeclib] and the
    properties their specification states about them.

    Memory is a finite array of byte cells; a pointer is [NULL] or the
    address of a cell; a read outside the array is a [Fault] (undefined
    behaviour in C).  The runtime-constraint handler is modelled by the list
    of its invocations. *)

From Stdlib Require Import Ascii String.
From Stdlib Require Import List NArith Arith Bool Lia.
Import ListNotations.

(** ** Machine integers *)

(** [rsize_t] is [size_t], an unsigned 64-bit integer. *)
Definition rsize_t := N.
Bind Scope N_scope with rsize_t.

Definition SIZE_MAX : N := 18446744073709551615.

(** [x--] on an [rsize_t]: zero wraps to [SIZE_MAX]. *)
Definition rsize_dec (x : rsize_t) : rsize_t :=
  if (x =? 0)%N then SIZE_MAX else (x - 1)%N.

(** [x++] on an [rsize_t]: [SIZE_MAX] wraps to zero. *)
Definition rsize_inc (x : rsize_t) : rsize_t :=
  if (x =? SIZE_MAX)%N then 0%N else (x + 1)%N.

(** A C integer used as a condition. *)
Definition nonzero (x : rsize_t) : bool := negb (x =? 0)%N.

(** ** Characters *)

Definition is_nul (c : ascii) : bool := Ascii.eqb c zero.

(** A [char] used as a condition. *)
Definition truthy (c : ascii) : bool := negb (is_nul c).

(** A [char] is one byte.  The comparisons of the source against 'A' and 'Z'
    give the same answer whether [char] is signed or not (a byte above 127 is
    outside 'A'..'Z' either way), so bytes are compared by their unsigned
    code. *)

(** [toupper] of <ctype.h> in the C locale, on single-byte codes: the letters
    'a'..'z' move down by 32, every other code is unchanged. *)
Definition toupper (c : ascii) : ascii :=
  if (Ascii.leb "a" c && Ascii.leb c "z")%bool
  then ascii_of_N (N_of_ascii c - 32)
  else c.

(** The test [(c < 'A') || (c > 'Z')] of strisuppercase_s, negated. *)
Definition in_A_Z (c : ascii) : bool :=
  negb (Ascii.ltb c "A" || Ascii.ltb "Z" c).

(** ** Status codes *)

(** Modelled from the spec: the [errno_t] codes the four functions use are
    declared in safe_lib_errno.h, not under src/.  The spec's error taxonomy
    has one kind per code (NullPointer, ZeroLength, LengthExceedsMax,
    NotFound) besides success; the constructors carry the names the source
    uses. *)
Inductive errno_t : Set := EOK | ESNULLP | ESZEROL | ESLEMAX | ESNOTFND.

(** Modelled from the spec: the macro [RCNEGATE] of safeclib_private.h is not
    under src/.  The spec names one status code per violation kind and returns
    "the corresponding status code", so the macro leaves its argument as it
    is. *)
Definition RCNEGATE (x : errno_t) : errno_t := x.

(** ** Memory, pointers and the computation monad *)

Definition memory := list ascii.

Inductive pointer : Set := NULL | Ptr (addr : nat).

Inductive outcome (A : Type) : Type :=
| Done (a : A)
| Fault.
Arguments Done {A} a.
Arguments Fault {A}.

(** One invocation of the constraint handler: the message and the error
    kind. *)
Definition report := (string * errno_t)%type.

(** A computation ends in a value and the handler invocations it made, or
    faults on a read outside memory. *)
Definition M (A : Type) : Type := outcome (A * list report).

Definition ret {A} (a : A) : M A := Done (a, []).

Definition bind {A B} (c : M A) (k : A -> M B) : M B :=
  match c with
  | Fault => Fault
  | Done (a, l) =>
      match k a with
      | Fault => Fault
      | Done (b, l') => Done (b, l ++ l')
      end
  end.

Notation "x <- c ;; k" := (bind c (fun x => k))
  (at level 61, c at next level, right associativity).
Notation "c ;; k" := (bind c (fun _ => k))
  (at level 61, right associativity).

(** Modelled from the spec: [invoke_safe_str_constraint_handler] lives in
    safe_str_constraint.h, not under src/.  The Constraint Reporter "invokes a
    registered handler with a diagnostic message and an error kind" and "does
    not alter control flow itself": the invocation is recorded. *)
Definition invoke_safe_str_constraint_handler (msg : string) (error : errno_t)
  : M unit :=
  Done (tt, [(msg, error)]).

(** [*p] for the address [a]. *)
Definition load (m : memory) (a : nat) : M ascii :=
  match nth_error m a with
  | Some c => ret c
  | None => Fault
  end.

(** The cells a [char *] of address [a] sees: [p[0]], [p[1]], ... *)
Definition view (m : memory) (a : nat) : list ascii := skipn a m.

(** A C string literal laid out in memory: its characters and the
    terminator. *)
Definition cstr (s : string) : list ascii :=
  list_ascii_of_string s ++ [zero].

(** ** The scanning loops

    Every loop reads the cell under an advancing pointer before anything else,
    so it is a structural recursion on the view of that pointer. *)

(** strisuppercase_s, lines 82-89: [while ( *dest )]. *)
Fixpoint strisuppercase_loop (dest : list ascii) (dmax : rsize_t) : M bool :=
  match dest with
  | [] => Fault
  | c :: dest' =>
      if truthy c then
        if (Ascii.ltb c "A" || Ascii.ltb "Z" c)%bool then ret false
        else strisuppercase_loop dest' (rsize_dec dmax)
      else ret true
  end.

(** strstr_s, lines 127-143: the comparison at one candidate position.  [s]
    and [d] are the views [src + i] and [dest + i], so that [i++] moves both
    to their tails (the [int i] stays below the needle budget [slen], at most
    RSIZE_MAX_STR); the result is [true] for the [return] of line 141 and
    [false] when the loop is left. *)
Fixpoint strstr_inner (s d : list ascii) (len dlen : rsize_t) : M bool :=
  match s with
  | [] => Fault
  | sc :: s' =>
      if (truthy sc && nonzero dlen)%bool then
        match d with
        | [] => Fault
        | dc :: d' =>
            if negb (Ascii.eqb dc sc) then ret false
            else
              let len := rsize_dec len in
              let dlen := rsize_dec dlen in
              match s' with
              | [] => Fault
              | sc' :: _ =>
                  if (is_nul sc' || negb (nonzero len))%bool then ret true
                  else strstr_inner s' d' len dlen
              end
        end
      else ret false
  end.

(** strstr_s, lines 122-146: the candidate positions.  [d] is the view of
    [dest], [dest] its address. *)
Fixpoint strstr_outer (src : list ascii) (slen : rsize_t)
    (d : list ascii) (dest : nat) (dmax : rsize_t) : M (option nat) :=
  match d with
  | [] => Fault
  | c :: d' =>
      if (truthy c && nonzero dmax)%bool then
        matched <- strstr_inner src d slen dmax ;;
        if matched : bool then ret (Some dest)
        else strstr_outer src slen d' (S dest) (rsize_dec dmax)
      else ret None
  end.

(** strcasestr_s, lines 129-145: the same comparison, with [dest[i]] in the
    loop condition and [toupper] on both characters. *)
Fixpoint strcasestr_inner (s d : list ascii) (len dlen : rsize_t) : M bool :=
  match d with
  | [] => Fault
  | dc :: d' =>
      if (truthy dc && nonzero dlen)%bool then
        match s with
        | [] => Fault
        | sc :: s' =>
            if negb (Ascii.eqb (toupper dc) (toupper sc)) then ret false
            else
              let len := rsize_dec len in
              let dlen := rsize_dec dlen in
              match s' with
              | [] => Fault
              | sc' :: _ =>
                  if (is_nul sc' || negb (nonzero len))%bool then ret true
                  else strcasestr_inner s' d' len dlen
              end
        end
      else ret false
  end.

(** strcasestr_s, lines 124-148. *)
Fixpoint strcasestr_outer (src : list ascii) (slen : rsize_t)
    (d : list ascii) (dest : nat) (dmax : rsize_t) : M (option nat) :=
  match d with
  | [] => Fault
  | c :: d' =>
      if (truthy c && nonzero dmax)%bool then
        matched <- strcasestr_inner src d slen dmax ;;
        if matched : bool then ret (Some dest)
        else strcasestr_outer src slen d' (S dest) (rsize_dec dmax)
      else ret None
  end.

(** strcspn_s, lines 124-131: is [c] in the exclusion string?  [true] is the
    [return] of line 127. *)
Fixpoint strcspn_inner (c : ascii) (scan2 : list ascii) (smax : rsize_t)
  : M bool :=
  match scan2 with
  | [] => Fault
  | x :: scan2' =>
      if (truthy x && nonzero smax)%bool then
        if Ascii.eqb c x then ret true
        else strcspn_inner c scan2' (rsize_dec smax)
      else ret false
  end.

(** strcspn_s, lines 116-136; [count] is the content of [*count]. *)
Fixpoint strcspn_outer (src : list ascii) (slen : rsize_t)
    (dest : list ascii) (dmax : rsize_t) (count : rsize_t) : M rsize_t :=
  match dest with
  | [] => Fault
  | c :: dest' =>
      if (truthy c && nonzero dmax)%bool then
        found <- strcspn_inner c src slen ;;
        if found : bool then ret count
        else strcspn_outer src slen dest' (rsize_dec dmax) (rsize_inc count)
      else ret count
  end.

(** ** The four operations *)

Section Operations.

(** The ceiling on every declared length.  The macro RSIZE_MAX_STR is defined
    in safe_str_lib.h, not under src/: it is a parameter of the operations. *)
Variable RSIZE_MAX_STR : rsize_t.

(** An output parameter is [None] when the pointer passed for it is null and
    [Some v] when it points to a cell holding [v]; the result carries the
    cell's final content. *)

Definition strstr_s (m : memory) (dest : pointer) (dmax : rsize_t)
    (src : pointer) (slen : rsize_t) (substring : option pointer)
  : M (errno_t * option pointer) :=
  match substring with
  | None =>
      invoke_safe_str_constraint_handler
        "strstr_s: substring is null" ESNULLP ;;
      ret (RCNEGATE ESNULLP, None)
  | Some _ =>
      let substring := Some NULL in
      match dest with
      | NULL =>
          invoke_safe_str_constraint_handler "strstr_s: dest is null" ESNULLP ;;
          ret (RCNEGATE ESNULLP, substring)
      | Ptr dest =>
          if (dmax =? 0)%N then
            invoke_safe_str_constraint_handler "strstr_s: dmax is 0" ESZEROL ;;
            ret (RCNEGATE ESZEROL, substring)
          else if (RSIZE_MAX_STR <? dmax)%N then
            invoke_safe_str_constraint_handler
              "strstr_s: dmax exceeds max" ESLEMAX ;;
            ret (RCNEGATE ESLEMAX, substring)
          else
            match src with
            | NULL =>
                invoke_safe_str_constraint_handler
                  "strstr_s: src is null" ESNULLP ;;
                ret (RCNEGATE ESNULLP, substring)
            | Ptr src =>
                if (slen =? 0)%N then
                  invoke_safe_str_constraint_handler
                    "strstr_s: slen is 0" ESZEROL ;;
                  ret (RCNEGATE ESZEROL, substring)
                else if (RSIZE_MAX_STR <? slen)%N then
                  invoke_safe_str_constraint_handler
                    "strstr_s: slen exceeds max" ESLEMAX ;;
                  ret (RCNEGATE ESLEMAX, substring)
                else
                  c <- load m src ;;
                  if (is_nul c || (dest =? src)%nat)%bool then
                    ret (RCNEGATE EOK, Some (Ptr dest))
                  else
                    found <- strstr_outer (view m src) slen (view m dest) dest dmax ;;
                    match found with
                    | Some p => ret (RCNEGATE EOK, Some (Ptr p))
                    | None => ret (RCNEGATE ESNOTFND, Some NULL)
                    end
            end
      end
  end.

Definition strcasestr_s (m : memory) (dest : pointer) (dmax : rsize_t)
    (src : pointer) (slen : rsize_t) (substring : option pointer)
  : M (errno_t * option pointer) :=
  match substring with
  | None =>
      invoke_safe_str_constraint_handler
        "strcasestr_s: substring is null" ESNULLP ;;
      ret (ESNULLP, None)
  | Some _ =>
      let substring := Some NULL in
      match dest with
      | NULL =>
          invoke_safe_str_constraint_handler
            "strcasestr_s: dest is null" ESNULLP ;;
          ret (ESNULLP, substring)
      | Ptr dest =>
          if (dmax =? 0)%N then
            invoke_safe_str_constraint_handler
              "strcasestr_s: dmax is 0" ESZEROL ;;
            ret (ESZEROL, substring)
          else if (RSIZE_MAX_STR <? dmax)%N then
            invoke_safe_str_constraint_handler
              "strcasestr_s: dmax exceeds max" ESLEMAX ;;
            ret (ESLEMAX, substring)
          else
            match src with
            | NULL =>
                invoke_safe_str_constraint_handler
                  "strcasestr_s: src is null" ESNULLP ;;
                ret (ESNULLP, substring)
            | Ptr src =>
                if (slen =? 0)%N then
                  invoke_safe_str_constraint_handler
                    "strcasestr_s: slen is 0" ESZEROL ;;
                  ret (ESZEROL, substring)
                else if (RSIZE_MAX_STR <? slen)%N then
                  invoke_safe_str_constraint_handler
                    "strcasestr_s: slen exceeds max" ESLEMAX ;;
                  ret (ESLEMAX, substring)
                else
                  c <- load m src ;;
                  if (is_nul c || (dest =? src)%nat)%bool then
                    ret (EOK, Some (Ptr dest))
                  else
                    found <- strcasestr_outer (view m src) slen (view m dest) dest dmax ;;
                    match found with
                    | Some p => ret (EOK, Some (Ptr p))
                    | None => ret (ESNOTFND, Some NULL)
                    end
            end
      end
  end.

Definition strcspn_s (m : memory) (dest : pointer) (dmax : rsize_t)
    (src : pointer) (slen : rsize_t) (count : option rsize_t)
  : M (errno_t * option rsize_t) :=
  match count with
  | None =>
      invoke_safe_str_constraint_handler "strcspn_s: count is null" ESNULLP ;;
      ret (RCNEGATE ESNULLP, None)
  | Some _ =>
      let count := Some 0%N in
      match dest with
      | NULL =>
          invoke_safe_str_constraint_handler
            "strcspn_s: dest is null" ESNULLP ;;
          ret (RCNEGATE ESNULLP, count)
      | Ptr dest =>
          match src with
          | NULL =>
              invoke_safe_str_constraint_handler
                "strcspn_s: src is null" ESNULLP ;;
              ret (RCNEGATE ESNULLP, count)
          | Ptr src =>
              if (dmax =? 0)%N then
                invoke_safe_str_constraint_handler
                  "strcspn_s: dmax is 0" ESZEROL ;;
                ret (RCNEGATE ESZEROL, count)
              else if (RSIZE_MAX_STR <? dmax)%N then
                invoke_safe_str_constraint_handler
                  "strcspn_s: dmax exceeds max" ESLEMAX ;;
                ret (RCNEGATE ESLEMAX, count)
              else if (slen =? 0)%N then
                invoke_safe_str_constraint_handler
                  "strcspn_s: slen is 0" ESZEROL ;;
                ret (RCNEGATE ESZEROL, count)
              else if (RSIZE_MAX_STR <? slen)%N then
                invoke_safe_str_constraint_handler
                  "strcspn_s: slen exceeds max" ESLEMAX ;;
                ret (RCNEGATE ESLEMAX, count)
              else
                n <- strcspn_outer (view m src) slen (view m dest) dmax 0%N ;;
                ret (RCNEGATE EOK, Some n)
          end
      end
  end.

Definition strisuppercase_s (m : memory) (dest : pointer) (dmax : rsize_t)
  : M bool :=
  match dest with
  | NULL =>
      invoke_safe_str_constraint_handler
        "strisuppercase_s: dest is null" ESNULLP ;;
      ret false
  | Ptr dest =>
      if (dmax =? 0)%N then
        invoke_safe_str_constraint_handler
          "strisuppercase_s: dmax is 0" ESZEROL ;;
        ret false
      else if (RSIZE_MAX_STR <? dmax)%N then
        invoke_safe_str_constraint_handler
          "strisuppercase_s: dmax exceeds max" ESLEMAX ;;
        ret false
      else
        c <- load m dest ;;
        if is_nul c then ret false
        else strisuppercase_loop (view m dest) dmax
  end.

End Operations.

(** ** The validation checks, as the specification lists them *)

Inductive check : Set :=
| OutNull | DestNull | DmaxZero | DmaxMax | SrcNull | SlenZero | SlenMax.

(** The violation kind of a check, and the message reported for it by the
    operation [op] whose output parameter is called [out]. *)
Definition kind_of (c : check) : errno_t :=
  match c with
  | OutNull | DestNull | SrcNull => ESNULLP
  | DmaxZero | SlenZero => ESZEROL
  | DmaxMax | SlenMax => ESLEMAX
  end.

Definition message (op out : string) (c : check) : string :=
  (op ++ ": " ++
   match c with
   | OutNull => out ++ " is null"
   | DestNull => "dest is null"
   | DmaxZero => "dmax is 0"
   | DmaxMax => "dmax exceeds max"
   | SrcNull => "src is null"
   | SlenZero => "slen is 0"
   | SlenMax => "slen exceeds max"
   end)%string.

(** The order of the checks in strstr_s and strcasestr_s, in strcspn_s, and
    in strisuppercase_s. *)
Definition search_order : list check :=
  [OutNull; DestNull; DmaxZero; DmaxMax; SrcNull; SlenZero; SlenMax].
Definition span_order : list check :=
  [OutNull; DestNull; SrcNull; DmaxZero; DmaxMax; SlenZero; SlenMax].
Definition predicate_order : list check :=
  [DestNull; DmaxZero; DmaxMax].

Definition is_null (p : pointer) : bool :=
  match p with NULL => true | Ptr _ => false end.

Definition is_none {A} (out : option A) : bool :=
  match out with None => true | Some _ => false end.

Section Checks.

Variable RSIZE_MAX_STR : rsize_t.

(** Does the check fail on these arguments?  [out_null] says whether the
    output pointer is null. *)
Definition fails (out_null : bool) (dest : pointer) (dmax : rsize_t)
    (src : pointer) (slen : rsize_t) (c : check) : bool :=
  match c with
  | OutNull => out_null
  | DestNull => is_null dest
  | DmaxZero => (dmax =? 0)%N
  | DmaxMax => (RSIZE_MAX_STR <? dmax)%N
  | SrcNull => is_null src
  | SlenZero => (slen =? 0)%N
  | SlenMax => (RSIZE_MAX_STR <? slen)%N
  end.

(** The first check of [order] that fails, if any. *)
Definition first_failing (order : list check) (out_null : bool)
    (dest : pointer) (dmax : rsize_t) (src : pointer) (slen : rsize_t)
  : option check :=
  find (fails out_null dest dmax src slen) order.

(** A declared maximum length that passes validation. *)
Definition valid_max (x : rsize_t) : Prop := (0 < x <= RSIZE_MAX_STR)%N.

End Checks.

(** The check of strisuppercase_s that rejects a null [dest] or a faulty
    [dmax]. *)
Definition primary_check (dest : pointer) (dmax : rsize_t) : check :=
  match dest with
  | NULL => DestNull
  | Ptr _ => if (dmax =? 0)%N then DmaxZero else DmaxMax
  end.

(** An output parameter after a rejected call: untouched when its pointer is
    null, reset to [empty] otherwise. *)
Definition reset {A} (empty : A) (out : option A) : option A :=
  match out with None => None | Some _ => Some empty end.

(** ** Notions the properties are stated with *)

(** The bounded prefix of a view: its cells up to the declared maximum
    length, stopping before the first terminator. *)
Fixpoint bounded_nat (cells : list ascii) (max : nat) : list ascii :=
  match max, cells with
  | S max', c :: cells' => if is_nul c then [] else c :: bounded_nat cells' max'
  | _, _ => []
  end.

Definition bounded (cells : list ascii) (max : rsize_t) : list ascii :=
  bounded_nat cells (N.to_nat max).

(** The cell at which a bounded scan of the view stops (the terminator, or
    the cell at index [max]) lies inside memory. *)
Definition readable (cells : list ascii) (max : rsize_t) : Prop :=
  length (bounded cells max) < length cells.

(** [prefix_by eqc n h]: every character of [n] has a partner in [h] at the
    same index, and [eqc partner character] holds. *)
Fixpoint prefix_by (eqc : ascii -> ascii -> bool) (n h : list ascii) : bool :=
  match n, h with
  | [], _ => true
  | _ :: _, [] => false
  | x :: n', y :: h' => (eqc y x && prefix_by eqc n' h')%bool
  end.

(** The needle [n] matches the haystack [h] at position [p]. *)
Definition occurs_at (eqc : ascii -> ascii -> bool) (n h : list ascii)
    (p : nat) : Prop :=
  prefix_by eqc n (skipn p h) = true.

Definition leftmost (eqc : ascii -> ascii -> bool) (n h : list ascii)
    (p : nat) : Prop :=
  occurs_at eqc n h p /\ forall q, q < p -> ~ occurs_at eqc n h q.

(** Exact comparison, and comparison of the uppercase normalizations. *)
Definition same_char (a b : ascii) : bool := Ascii.eqb a b.
Definition same_upper (a b : ascii) : bool := Ascii.eqb (toupper a) (toupper b).

(** The number of leading characters of [h] that are not in [e]. *)
Fixpoint span_excluding (e h : list ascii) : nat :=
  match h with
  | [] => 0
  | c :: h' => if existsb (Ascii.eqb c) e then 0 else S (span_excluding e h')
  end.

(** ** Memories and a ceiling for the worked examples *)

(** The ceiling the examples run with: 4096, the value [4UL << 10] that
    safe_str_lib.h gives RSIZE_MAX_STR in the released library. *)
Definition ceiling_4k : rsize_t := 4096%N.

(** Each memory holds the haystack at address 0 and, for the two-buffer
    operations, the second string right behind the haystack's terminator. *)
Definition mem_abcabd_abd : memory := cstr "abcabd" ++ cstr "abd".
Definition mem_abcdef_abcX : memory := cstr "abcdef" ++ cstr "abcX".
Definition mem_abcdef_abcY : memory := cstr "abcdef" ++ cstr "abcY".
Definition mem_abcdef_xyz : memory := cstr "abcdef" ++ cstr "xyz".
Definition mem_hello_world : memory := cstr "Hello World" ++ cstr "WORLD".
Definition mem_abc_empty : memory := cstr "abc" ++ cstr EmptyString.
Definition mem_digits_abc : memory := cstr "12345abc" ++ cstr "abc".
Definition mem_digits_xyz : memory := cstr "12345abc" ++ cstr "xyz".
Definition mem_ab_abc : memory := cstr "ab" ++ cstr "abc".
Definition mem_HELLO : memory := cstr "HELLO".
Definition mem_HELLo : memory := cstr "HELLo".
Definition mem_empty_string : memory := cstr EmptyString.
Definition mem_ABC : memory := cstr "ABC".
Definition mem_ABc : memory := cstr "ABc".
(** The needle first, then a haystack of two letters with which memory
    ends. *)
Definition mem_xyz_then_ab : memory := cstr "xyz" ++ list_ascii_of_string "ab".
(** The haystack, then a needle of three letters with which memory ends. *)
Definition mem_abcdef_then_abc : memory :=
  cstr "abcdef" ++ list_ascii_of_string "abc".
(** Two letters and no terminator: the object ends after them. *)
Definition mem_AB_unterminated : memory := list_ascii_of_string "AB".

(** Further memories: the exclusion string followed by one more letter, the
    case-insensitive example with every letter's case flipped, and a text
    without lowercase letters. *)
Definition mem_digits_abcZ : memory := cstr "12345abc" ++ cstr "abcZ".
Definition mem_hELLO_wORLD : memory := cstr "hELLO wORLD" ++ cstr "world".
Definition mem_ORDER_66 : memory := cstr "ORDER 66, ORDER 67" ++ cstr "ORDER 67".

(** A haystack in which the needle occurs in capitals before it occurs in
    small letters. *)
Definition mem_xABDabd_abd : memory := cstr "xABDabd" ++ cstr "abd".

(** ** Proof automation *)

(** One case split on a validation test of an operation's preamble. *)
Ltac validation_cases :=
  match goal with
  | |- context [match ?p with NULL => _ | Ptr _ => _ end] =>
      is_var p; destruct p; simpl
  | |- context [if (?a =? ?b)%N then _ else _] => destruct (a =? b)%N; simpl
  | |- context [if (?a <? ?b)%N then _ else _] => destruct (a <? b)%N; simpl
  end.

(** Validity of a declared length under the examples' ceiling. *)
Ltac valid_4k := unfold valid_max, ceiling_4k; lia.

(** Closes [forall p, ~ occurs_at eqc n h p] for concrete [n] and [h] of at
    most twelve characters. *)
Ltac nowhere :=
  let p := fresh "p" in
  let E := fresh "E" in
  intros p E; unfold occurs_at in E;
  do 13 (destruct p as [|p]; [vm_compute in E; discriminate E|]);
  destruct p; vm_compute in E; discriminate E.

(** Closes [leftmost eqc n h p] for concrete [n], [h] and [p] below twelve. *)
Ltac leftmost_here :=
  split;
  [ vm_compute; reflexivity
  | let q := fresh "q" in
    let Hq := fresh "Hq" in
    let E := fresh "E" in
    intros q Hq E; unfold occurs_at in E;
    do 13 (destruct q as [|q]; [first [lia | vm_compute in E; discriminate E]|]);
    lia ].

(** Closes [Forall P l] for a concrete list [l] given by a computation. *)
Ltac forall_cells :=
  match goal with
  | |- Forall _ ?l =>
      let l' := eval vm_compute in l in
      change l with l'; repeat constructor
  end.

(** * Properties *)

(** ** The monad and the machine integers *)

Lemma bind_ret_l {A B} (a : A) (k : A -> M B) : bind (ret a) k = k a.
Proof.
  unfold bind, ret. destruct (k a) as [[b l]|]; reflexivity.
Qed.

Lemma rsize_dec_pos (x : rsize_t) :
  x <> 0%N -> N.to_nat x = S (N.to_nat (rsize_dec x)).
Proof.
  intros Hx. unfold rsize_dec.
  destruct (N.eqb_spec x 0); [contradiction | lia].
Qed.

Lemma nonzero_true (x : rsize_t) : nonzero x = true <-> x <> 0%N.
Proof.
  unfold nonzero. destruct (N.eqb_spec x 0); simpl; split; congruence.
Qed.

(** ** Views and bounded prefixes *)

Lemma view_cons (m : memory) (a : nat) c r :
  view m a = c :: r -> nth_error m a = Some c /\ view m (S a) = r.
Proof.
  unfold view. revert a. induction m as [|x m IH]; intros [|a] H; simpl in *;
    try discriminate.
  - inversion H; subst. split; reflexivity.
  - exact (IH a H).
Qed.

Lemma bounded_nil max : bounded [] max = [].
Proof. unfold bounded. destruct (N.to_nat max); reflexivity. Qed.

Lemma bounded_cons c cells max :
  bounded (c :: cells) max =
  if (truthy c && nonzero max)%bool then c :: bounded cells (rsize_dec max)
  else [].
Proof.
  unfold bounded, truthy.
  destruct (N.eqb_spec max 0) as [->|Hmax].
  - simpl. rewrite andb_false_r. reflexivity.
  - rewrite (rsize_dec_pos _ Hmax). simpl.
    apply nonzero_true in Hmax. rewrite Hmax.
    destruct (is_nul c); reflexivity.
Qed.

Lemma bounded_nat_length cells max : length (bounded_nat cells max) <= length cells.
Proof.
  revert cells; induction max as [|max IH]; intros [|c cells]; simpl; try lia.
  destruct (is_nul c); simpl; [lia|]. specialize (IH cells). lia.
Qed.

Lemma bounded_length cells max : length (bounded cells max) <= length cells.
Proof. apply bounded_nat_length. Qed.

Lemma bounded_nat_length_max cells max : length (bounded_nat cells max) <= max.
Proof.
  revert cells; induction max as [|max IH]; intros [|c cells]; simpl; try lia.
  destruct (is_nul c); simpl; [lia|]. specialize (IH cells). lia.
Qed.

Lemma prefix_by_length eqc n h :
  prefix_by eqc n h = true -> length n <= length h.
Proof.
  revert h; induction n as [|x n IH]; intros [|y h] H; simpl in *;
    try lia; try discriminate.
  apply andb_true_iff in H. destruct H as [_ H]. apply IH in H. lia.
Qed.

Lemma occurs_at_length eqc n h p :
  n <> [] -> occurs_at eqc n h p -> p + length n <= length h /\ p < length h.
Proof.
  unfold occurs_at. intros Hn H. apply prefix_by_length in H.
  rewrite length_skipn in H. destruct n; [congruence|]. simpl in *. lia.
Qed.

(** Either the needle occurs nowhere, or there is a leftmost occurrence. *)
Lemma occurrence_decided eqc n h :
  n <> [] ->
  (exists p, leftmost eqc n h p) \/ (forall p, ~ occurs_at eqc n h p).
Proof.
  intros Hn. induction h as [|y h IH].
  - right. intros p H. apply (occurs_at_length _ _ _ _ Hn) in H.
    simpl in H. lia.
  - destruct (prefix_by eqc n (y :: h)) eqn:E0.
    + left. exists 0. split; [exact E0|]. intros q Hq. lia.
    + destruct IH as [[p [Hocc Hleft]]|Hno].
      * left. exists (S p). split; [exact Hocc|].
        intros [|q] Hq H.
        -- unfold occurs_at in H. simpl in H. congruence.
        -- apply (Hleft q); [lia | exact H].
      * right. intros [|p] H.
        -- unfold occurs_at in H. simpl in H. congruence.
        -- apply (Hno p). exact H.
Qed.

(** ** The comparison at one candidate position *)

Lemma truthy_same_char dc sc : same_char dc sc = true -> truthy sc = true -> truthy dc = true.
Proof.
  unfold same_char. intros H Hs. apply Ascii.eqb_eq in H. subst. exact Hs.
Qed.

(** The next needle cell ends the needle exactly when the rest of the bounded
    needle is empty. *)
Lemma bounded_rest_nil sc' s'' len :
  (is_nul sc' || negb (nonzero len))%bool = true <-> bounded (sc' :: s'') len = [].
Proof.
  rewrite bounded_cons. unfold truthy.
  destruct (is_nul sc'), (nonzero len); simpl; split; congruence.
Qed.

Lemma strstr_inner_spec s : forall d len dlen,
  bounded s len <> [] -> readable s len ->
  (length (bounded s len) <= length d \/ readable d dlen) ->
  strstr_inner s d len dlen =
  ret (prefix_by same_char (bounded s len) (bounded d dlen)).
Proof.
  induction s as [|sc s' IH]; intros d len dlen Hn Hs Hd.
  - rewrite bounded_nil in Hn. congruence.
  - unfold readable in *. rewrite bounded_cons in *.
    destruct (truthy sc) eqn:Hsc; [|simpl in Hn; congruence].
    destruct (nonzero len) eqn:Hlen; [|simpl in Hn; congruence].
    simpl in Hs, Hd |- *. rewrite Hsc. simpl.
    destruct (nonzero dlen) eqn:Hdlen.
    + destruct d as [|dc d'].
      { exfalso. rewrite bounded_nil in Hd. simpl in Hd. lia. }
      rewrite bounded_cons in *. rewrite Hdlen in *. rewrite andb_true_r in *.
      fold (same_char dc sc).
      destruct (same_char dc sc) eqn:Heq; simpl.
      * rewrite (truthy_same_char _ _ Heq Hsc) in *. simpl in *.
        destruct s' as [|sc' s''].
        { exfalso. rewrite bounded_nil in Hs. simpl in Hs. lia. }
        destruct (is_nul sc' || negb (nonzero (rsize_dec len)))%bool eqn:Hend.
        -- apply (bounded_rest_nil sc' s'') in Hend. rewrite Hend, Heq. reflexivity.
        -- rewrite Heq. simpl. apply IH.
           ++ intro E. apply (bounded_rest_nil sc' s'') in E. congruence.
           ++ lia.
           ++ destruct Hd; [left|right]; lia.
      * destruct (truthy dc); simpl; [rewrite Heq|]; reflexivity.
    + destruct d as [|dc d']; [rewrite bounded_nil | rewrite bounded_cons, Hdlen, andb_false_r];
        reflexivity.
Qed.

Lemma truthy_toupper c : truthy (toupper c) = truthy c.
Proof.
  unfold truthy, is_nul. f_equal.
  destruct c as [[] [] [] [] [] [] [] []]; reflexivity.
Qed.

Lemma truthy_same_upper dc sc : same_upper dc sc = true -> truthy sc = true -> truthy dc = true.
Proof.
  unfold same_upper. intros H Hs. apply Ascii.eqb_eq in H.
  rewrite <- truthy_toupper, H, truthy_toupper. exact Hs.
Qed.

Lemma strcasestr_inner_spec s : forall d len dlen,
  bounded s len <> [] -> readable s len ->
  (length (bounded s len) <= length d \/ readable d dlen) ->
  strcasestr_inner s d len dlen =
  ret (prefix_by same_upper (bounded s len) (bounded d dlen)).
Proof.
  induction s as [|sc s' IH]; intros d len dlen Hn Hs Hd.
  - rewrite bounded_nil in Hn. congruence.
  - unfold readable in *. rewrite bounded_cons in *.
    destruct (truthy sc) eqn:Hsc; [|simpl in Hn; congruence].
    destruct (nonzero len) eqn:Hlen; [|simpl in Hn; congruence].
    simpl in Hs, Hd.
    destruct d as [|dc d'].
    { exfalso. rewrite bounded_nil in Hd. simpl in Hd. lia. }
    simpl. rewrite bounded_cons in *.
    destruct (truthy dc && nonzero dlen)%bool eqn:Hcond; [|reflexivity].
    fold (same_upper dc sc). simpl in *.
    destruct (same_upper dc sc) eqn:Heq; simpl; [|reflexivity].
    destruct s' as [|sc' s''].
    { exfalso. rewrite bounded_nil in Hs. simpl in Hs. lia. }
    destruct (is_nul sc' || negb (nonzero (rsize_dec len)))%bool eqn:Hend.
    + apply (bounded_rest_nil sc' s'') in Hend. rewrite Hend. reflexivity.
    + apply IH.
      * intro E. apply (bounded_rest_nil sc' s'') in E. congruence.
      * lia.
      * destruct Hd; [left|right]; lia.
Qed.

(** ** The candidate positions

    strstr_s and strcasestr_s walk the candidate positions with the same
    loop; its properties are proved once, for any comparison [inner] that
    decides [prefix_by eqc]. *)

Section Search.

Variable eqc : ascii -> ascii -> bool.
Variable inner : list ascii -> list ascii -> rsize_t -> rsize_t -> M bool.
Variable outer :
  list ascii -> rsize_t -> list ascii -> nat -> rsize_t -> M (option nat).

Hypothesis outer_unfold : forall src slen d dest dmax,
  outer src slen d dest dmax =
  match d with
  | [] => Fault
  | c :: d' =>
      if (truthy c && nonzero dmax)%bool then
        matched <- inner src d slen dmax ;;
        if matched : bool then ret (Some dest)
        else outer src slen d' (S dest) (rsize_dec dmax)
      else ret None
  end.

Hypothesis inner_spec : forall s d len dlen,
  bounded s len <> [] -> readable s len ->
  (length (bounded s len) <= length d \/ readable d dlen) ->
  inner s d len dlen = ret (prefix_by eqc (bounded s len) (bounded d dlen)).

Lemma outer_found src slen :
  bounded src slen <> [] -> readable src slen ->
  forall p d dest dmax,
    leftmost eqc (bounded src slen) (bounded d dmax) p ->
    outer src slen d dest dmax = ret (Some (dest + p)).
Proof.
  intros Hn Hs. induction p as [|p IH]; intros d dest dmax [Hocc Hleft];
    destruct (occurs_at_length _ _ _ _ Hn Hocc) as [Hlen Hp];
    (destruct d as [|c d']; [rewrite bounded_nil in Hp; simpl in Hp; lia|]);
    rewrite outer_unfold;
    pose proof (bounded_length d' (rsize_dec dmax)) as Hb;
    rewrite bounded_cons in *;
    (destruct (truthy c && nonzero dmax)%bool eqn:Hc; [|simpl in Hp; lia]);
    (rewrite inner_spec; [|assumption|assumption|left; simpl in *; lia]);
    rewrite bind_ret_l, bounded_cons, Hc.
  - unfold occurs_at in Hocc. simpl in Hocc. rewrite Hocc.
    rewrite Nat.add_0_r. reflexivity.
  - assert (H0 : prefix_by eqc (bounded src slen)
                   (c :: bounded d' (rsize_dec dmax)) = false).
    { apply not_true_is_false. intro E. apply (Hleft 0); [lia | exact E]. }
    rewrite H0. rewrite (IH d' (S dest) (rsize_dec dmax)).
    + rewrite Nat.add_succ_r. reflexivity.
    + split; [exact Hocc|]. intros q Hq Hoq. apply (Hleft (S q)); [lia|].
      exact Hoq.
Qed.

Lemma readable_tail c d' dmax :
  (truthy c && nonzero dmax)%bool = true ->
  readable (c :: d') dmax -> readable d' (rsize_dec dmax).
Proof.
  unfold readable. rewrite bounded_cons. intros ->. simpl. lia.
Qed.

Lemma outer_not_found src slen :
  bounded src slen <> [] -> readable src slen ->
  forall d dest dmax,
    readable d dmax ->
    (forall p, ~ occurs_at eqc (bounded src slen) (bounded d dmax) p) ->
    outer src slen d dest dmax = ret None.
Proof.
  intros Hn Hs. induction d as [|c d' IH]; intros dest dmax Hd Hno.
  - unfold readable in Hd. simpl in Hd. lia.
  - rewrite outer_unfold.
    destruct (truthy c && nonzero dmax)%bool eqn:Hc; [|reflexivity].
    rewrite inner_spec; [|assumption|assumption|right; assumption].
    rewrite bind_ret_l.
    assert (H0 : prefix_by eqc (bounded src slen) (bounded (c :: d') dmax) = false).
    { apply not_true_is_false. exact (Hno 0). }
    rewrite H0. apply IH.
    + apply (readable_tail _ _ _ Hc Hd).
    + intros p Hp. apply (Hno (S p)). unfold occurs_at in *.
      rewrite bounded_cons, Hc. exact Hp.
Qed.

End Search.

Lemma strstr_outer_unfold src slen d dest dmax :
  strstr_outer src slen d dest dmax =
  match d with
  | [] => Fault
  | c :: d' =>
      if (truthy c && nonzero dmax)%bool then
        matched <- strstr_inner src d slen dmax ;;
        if matched : bool then ret (Some dest)
        else strstr_outer src slen d' (S dest) (rsize_dec dmax)
      else ret None
  end.
Proof. destruct d; reflexivity. Qed.

Lemma strcasestr_outer_unfold src slen d dest dmax :
  strcasestr_outer src slen d dest dmax =
  match d with
  | [] => Fault
  | c :: d' =>
      if (truthy c && nonzero dmax)%bool then
        matched <- strcasestr_inner src d slen dmax ;;
        if matched : bool then ret (Some dest)
        else strcasestr_outer src slen d' (S dest) (rsize_dec dmax)
      else ret None
  end.
Proof. destruct d; reflexivity. Qed.

Lemma strstr_outer_found src slen :
  bounded src slen <> [] -> readable src slen ->
  forall p d dest dmax,
    leftmost same_char (bounded src slen) (bounded d dmax) p ->
    strstr_outer src slen d dest dmax = ret (Some (dest + p)).
Proof.
  exact (outer_found same_char strstr_inner strstr_outer
           strstr_outer_unfold strstr_inner_spec src slen).
Qed.

Lemma strstr_outer_not_found src slen :
  bounded src slen <> [] -> readable src slen ->
  forall d dest dmax,
    readable d dmax ->
    (forall p, ~ occurs_at same_char (bounded src slen) (bounded d dmax) p) ->
    strstr_outer src slen d dest dmax = ret None.
Proof.
  exact (outer_not_found same_char strstr_inner strstr_outer
           strstr_outer_unfold strstr_inner_spec src slen).
Qed.

Lemma strcasestr_outer_found src slen :
  bounded src slen <> [] -> readable src slen ->
  forall p d dest dmax,
    leftmost same_upper (bounded src slen) (bounded d dmax) p ->
    strcasestr_outer src slen d dest dmax = ret (Some (dest + p)).
Proof.
  exact (outer_found same_upper strcasestr_inner strcasestr_outer
           strcasestr_outer_unfold strcasestr_inner_spec src slen).
Qed.

Lemma strcasestr_outer_not_found src slen :
  bounded src slen <> [] -> readable src slen ->
  forall d dest dmax,
    readable d dmax ->
    (forall p, ~ occurs_at same_upper (bounded src slen) (bounded d dmax) p) ->
    strcasestr_outer src slen d dest dmax = ret None.
Proof.
  exact (outer_not_found same_upper strcasestr_inner strcasestr_outer
           strcasestr_outer_unfold strcasestr_inner_spec src slen).
Qed.

Lemma same_char_refl c : same_char c c = true.
Proof. apply Ascii.eqb_refl. Qed.

Lemma same_upper_refl c : same_upper c c = true.
Proof. apply Ascii.eqb_refl. Qed.

Lemma bounded_nat_same_view eqc v :
  (forall c, eqc c c = true) ->
  forall a b,
    length (bounded_nat v a) <= length (bounded_nat v b) ->
    prefix_by eqc (bounded_nat v a) (bounded_nat v b) = true.
Proof.
  intros Hrefl.
  induction v as [|c v IH]; intros [|a] [|b] H; simpl in *; try reflexivity.
  - destruct (is_nul c); [reflexivity | simpl in H; lia].
  - destruct (is_nul c); [reflexivity|]. simpl in *.
    rewrite Hrefl. simpl. apply IH. lia.
Qed.

(** Two bounded prefixes of one view: if the needle occurs at all, it occurs
    at the start. *)
Lemma same_view_leftmost eqc v slen dmax p :
  (forall c, eqc c c = true) ->
  bounded v slen <> [] ->
  leftmost eqc (bounded v slen) (bounded v dmax) p -> p = 0.
Proof.
  intros Hrefl Hn [Hocc Hleft].
  destruct (occurs_at_length _ _ _ _ Hn Hocc) as [Hlen _].
  destruct p as [|p]; [reflexivity|]. exfalso.
  apply (Hleft 0); [lia|]. unfold occurs_at. simpl.
  apply bounded_nat_same_view; [exact Hrefl|]. unfold bounded in Hlen. lia.
Qed.

(** A bounded prefix that uses its whole budget is the first [max] cells,
    and a bounded prefix depends on those cells only. *)
Lemma bounded_nat_full v : forall k,
  length (bounded_nat v k) = k -> bounded_nat v k = firstn k v.
Proof.
  induction v as [|c v IH]; intros [|k] H; simpl in *; try reflexivity;
    try discriminate.
  destruct (is_nul c); simpl in *; [discriminate|].
  f_equal. apply IH. lia.
Qed.

Lemma bounded_nat_firstn v : forall k,
  bounded_nat (firstn k v) k = bounded_nat v k.
Proof.
  induction v as [|c v IH]; intros [|k]; simpl; try reflexivity.
  destruct (is_nul c); [reflexivity|]. f_equal. apply IH.
Qed.

(** ** The complement span *)

Lemma strcspn_inner_spec c s : forall smax,
  existsb (Ascii.eqb c) (bounded s smax) = true \/ readable s smax ->
  strcspn_inner c s smax = ret (existsb (Ascii.eqb c) (bounded s smax)).
Proof.
  induction s as [|x s IH]; intros smax H.
  - exfalso. unfold readable in H. rewrite bounded_nil in H. simpl in H.
    destruct H; [discriminate | lia].
  - simpl. unfold readable in *. rewrite bounded_cons in *.
    destruct (truthy x && nonzero smax)%bool; [|reflexivity].
    simpl in *. destruct (Ascii.eqb c x); [reflexivity|]. simpl in *.
    apply IH. destruct H; [left; assumption | right; lia].
Qed.

Lemma rsize_inc_small (x : rsize_t) :
  (x < SIZE_MAX)%N -> rsize_inc x = (x + 1)%N.
Proof.
  intros H. unfold rsize_inc. destruct (N.eqb_spec x SIZE_MAX); [lia|].
  reflexivity.
Qed.

Lemma strcspn_outer_spec src slen d : forall dmax count,
  span_excluding (bounded src slen) (bounded d dmax) < length d ->
  (0 < span_excluding (bounded src slen) (bounded d dmax) ->
   readable src slen) ->
  (count + N.of_nat (span_excluding (bounded src slen) (bounded d dmax))
   <= SIZE_MAX)%N ->
  strcspn_outer src slen d dmax count =
  ret (count + N.of_nat (span_excluding (bounded src slen) (bounded d dmax)))%N.
Proof.
  induction d as [|c d IH]; intros dmax count Hk Hsrc Hfit.
  - simpl in Hk. lia.
  - simpl. rewrite bounded_cons in *.
    destruct (truthy c && nonzero dmax)%bool.
    2:{ simpl. rewrite N.add_0_r. reflexivity. }
    simpl in *.
    rewrite strcspn_inner_spec.
    2:{ destruct (existsb (Ascii.eqb c) (bounded src slen));
          [left; reflexivity | right; apply Hsrc; lia]. }
    rewrite bind_ret_l.
    destruct (existsb (Ascii.eqb c) (bounded src slen)).
    + simpl. rewrite N.add_0_r. reflexivity.
    + rewrite rsize_inc_small by lia.
      rewrite IH.
      * f_equal. lia.
      * lia.
      * intros H. apply Hsrc. lia.
      * lia.
Qed.

(** [span_excluding e h] is the length of the longest prefix of [h] with no
    character of [e]: it stops at the first character of [h] that is in [e],
    and is the whole length when there is none. *)
Lemma span_excluding_spec e h :
  span_excluding e h <= length h /\
  (forall i c, i < span_excluding e h -> nth_error h i = Some c ->
               existsb (Ascii.eqb c) e = false) /\
  (span_excluding e h < length h ->
   exists c, nth_error h (span_excluding e h) = Some c /\
             existsb (Ascii.eqb c) e = true).
Proof.
  induction h as [|x h (IH1 & IH2 & IH3)]; simpl.
  - split; [lia | split; [intros i c Hi; lia | lia]].
  - destruct (existsb (Ascii.eqb x) e) eqn:Hx; (split; [|split]).
    + lia.
    + intros i c Hi. lia.
    + intros _. exists x. split; [reflexivity | exact Hx].
    + lia.
    + intros [|i] c Hi Hc; simpl in Hc.
      * inversion Hc; subst. exact Hx.
      * apply (IH2 i c); [lia | exact Hc].
    + intros H. apply IH3. lia.
Qed.

(** ** The searches, after validation *)

Section Properties.

Variable RSIZE_MAX_STR : rsize_t.

Lemma valid_max_tests x :
  valid_max RSIZE_MAX_STR x ->
  (x =? 0)%N = false /\ (RSIZE_MAX_STR <? x)%N = false.
Proof.
  unfold valid_max. intros [H1 H2]. split.
  - apply N.eqb_neq. lia.
  - apply N.ltb_ge. exact H2.
Qed.

Lemma strstr_s_validated m dest dmax src slen old c :
  valid_max RSIZE_MAX_STR dmax -> valid_max RSIZE_MAX_STR slen ->
  nth_error m src = Some c ->
  strstr_s RSIZE_MAX_STR m (Ptr dest) dmax (Ptr src) slen (Some old) =
  if (is_nul c || (dest =? src)%nat)%bool then ret (EOK, Some (Ptr dest))
  else
    found <- strstr_outer (view m src) slen (view m dest) dest dmax ;;
    match found with
    | Some p => ret (EOK, Some (Ptr p))
    | None => ret (ESNOTFND, Some NULL)
    end.
Proof.
  intros Hd Hs Hc. unfold strstr_s.
  destruct (valid_max_tests _ Hd) as [-> ->].
  destruct (valid_max_tests _ Hs) as [-> ->].
  unfold load. rewrite Hc, bind_ret_l. reflexivity.
Qed.

Lemma strcasestr_s_validated m dest dmax src slen old c :
  valid_max RSIZE_MAX_STR dmax -> valid_max RSIZE_MAX_STR slen ->
  nth_error m src = Some c ->
  strcasestr_s RSIZE_MAX_STR m (Ptr dest) dmax (Ptr src) slen (Some old) =
  if (is_nul c || (dest =? src)%nat)%bool then ret (EOK, Some (Ptr dest))
  else
    found <- strcasestr_outer (view m src) slen (view m dest) dest dmax ;;
    match found with
    | Some p => ret (EOK, Some (Ptr p))
    | None => ret (ESNOTFND, Some NULL)
    end.
Proof.
  intros Hd Hs Hc. unfold strcasestr_s.
  destruct (valid_max_tests _ Hd) as [-> ->].
  destruct (valid_max_tests _ Hs) as [-> ->].
  unfold load. rewrite Hc, bind_ret_l. reflexivity.
Qed.

(** A non-empty bounded needle starts with a mapped, non-terminator cell. *)
Lemma needle_head m src slen :
  bounded (view m src) slen <> [] ->
  exists c, nth_error m src = Some c /\ is_nul c = false.
Proof.
  intros Hn. destruct (view m src) as [|c r] eqn:Hv.
  - rewrite bounded_nil in Hn. congruence.
  - rewrite bounded_cons in Hn. unfold truthy in Hn.
    destruct (is_nul c) eqn:Hc; [simpl in Hn; congruence|].
    exists c. split; [|exact Hc]. apply (view_cons _ _ _ _ Hv).
Qed.

(** What strstr_s does when the needle occurs (kept apart for the lemmas
    below that compare two memories). *)
Lemma strstr_s_leftmost_found m dest dmax src slen old p :
  valid_max RSIZE_MAX_STR dmax -> valid_max RSIZE_MAX_STR slen ->
  bounded (view m src) slen <> [] ->
  readable (view m src) slen ->
  leftmost same_char (bounded (view m src) slen) (bounded (view m dest) dmax) p ->
  strstr_s RSIZE_MAX_STR m (Ptr dest) dmax (Ptr src) slen (Some old) =
  Done ((EOK, Some (Ptr (dest + p))), []).
Proof.
  intros Hd Hs Hn Hr Hp.
  destruct (needle_head _ _ _ Hn) as (c & Hc & Hnul).
  rewrite (strstr_s_validated _ _ _ _ _ _ _ Hd Hs Hc), Hnul. simpl.
  destruct (Nat.eqb_spec dest src) as [->|Hne].
  - rewrite (same_view_leftmost _ _ _ _ _ same_char_refl Hn Hp), Nat.add_0_r.
    reflexivity.
  - rewrite (strstr_outer_found _ _ Hn Hr _ _ _ _ Hp), bind_ret_l.
    reflexivity.
Qed.

(** C3. For a haystack and a needle whose declared lengths pass validation,
    when the bounded needle (non-empty, as far as [slen] and its terminator
    reach) occurs in the bounded haystack and [p] is the leftmost position at
    which it does, strstr_s returns EOK, sets [*substring] to [dest + p] and
    reports no violation.  The needle cell at which the comparison stops is
    read, so it has to lie inside memory. *)
Theorem strstr_s_leftmost_match m dest dmax src slen old p :
  valid_max RSIZE_MAX_STR dmax -> valid_max RSIZE_MAX_STR slen ->
  bounded (view m src) slen <> [] ->
  readable (view m src) slen ->
  leftmost same_char (bounded (view m src) slen) (bounded (view m dest) dmax) p ->
  strstr_s RSIZE_MAX_STR m (Ptr dest) dmax (Ptr src) slen (Some old) =
  Done ((EOK, Some (Ptr (dest + p))), []).
Proof.
  intros Hd Hs Hn Hr Hp.
  destruct (needle_head _ _ _ Hn) as (c & Hc & Hnul).
  rewrite (strstr_s_validated _ _ _ _ _ _ _ Hd Hs Hc), Hnul. simpl.
  destruct (Nat.eqb_spec dest src) as [->|Hne].
  - (* one buffer: the needle occurs at the start, so [p = 0] *)
    rewrite (same_view_leftmost _ _ _ _ _ same_char_refl Hn Hp), Nat.add_0_r.
    reflexivity.
  - (* the scan rejects the candidates before [p] and accepts [p] *)
    rewrite (strstr_outer_found _ _ Hn Hr _ _ _ _ Hp), bind_ret_l.
    reflexivity.
Qed.

(** What strstr_s does when the scan finds nothing. *)
Lemma strstr_s_no_match m dest dmax src slen old :
  valid_max RSIZE_MAX_STR dmax -> valid_max RSIZE_MAX_STR slen ->
  bounded (view m src) slen <> [] ->
  readable (view m src) slen -> readable (view m dest) dmax ->
  dest <> src ->
  (forall p, ~ occurs_at same_char (bounded (view m src) slen)
                 (bounded (view m dest) dmax) p) ->
  strstr_s RSIZE_MAX_STR m (Ptr dest) dmax (Ptr src) slen (Some old) =
  Done ((ESNOTFND, Some NULL), []).
Proof.
  intros Hd Hs Hn Hr Hrd Hne Hno.
  destruct (needle_head _ _ _ Hn) as (c & Hc & Hnul).
  rewrite (strstr_s_validated _ _ _ _ _ _ _ Hd Hs Hc), Hnul. simpl.
  destruct (Nat.eqb_spec dest src) as [E|_]; [contradiction|].
  rewrite (strstr_outer_not_found _ _ Hn Hr _ _ _ Hrd Hno), bind_ret_l.
  reflexivity.
Qed.

Lemma strcasestr_s_match m dest dmax src slen old p :
  valid_max RSIZE_MAX_STR dmax -> valid_max RSIZE_MAX_STR slen ->
  bounded (view m src) slen <> [] ->
  readable (view m src) slen ->
  leftmost same_upper (bounded (view m src) slen) (bounded (view m dest) dmax) p ->
  strcasestr_s RSIZE_MAX_STR m (Ptr dest) dmax (Ptr src) slen (Some old) =
  Done ((EOK, Some (Ptr (dest + p))), []).
Proof.
  intros Hd Hs Hn Hr Hp.
  destruct (needle_head _ _ _ Hn) as (c & Hc & Hnul).
  rewrite (strcasestr_s_validated _ _ _ _ _ _ _ Hd Hs Hc), Hnul. simpl.
  destruct (Nat.eqb_spec dest src) as [->|Hne].
  - rewrite (same_view_leftmost _ _ _ _ _ same_upper_refl Hn Hp), Nat.add_0_r.
    reflexivity.
  - rewrite (strcasestr_outer_found _ _ Hn Hr _ _ _ _ Hp), bind_ret_l.
    reflexivity.
Qed.

Lemma strcasestr_s_no_match m dest dmax src slen old :
  valid_max RSIZE_MAX_STR dmax -> valid_max RSIZE_MAX_STR slen ->
  bounded (view m src) slen <> [] ->
  readable (view m src) slen -> readable (view m dest) dmax ->
  dest <> src ->
  (forall p, ~ occurs_at same_upper (bounded (view m src) slen)
                 (bounded (view m dest) dmax) p) ->
  strcasestr_s RSIZE_MAX_STR m (Ptr dest) dmax (Ptr src) slen (Some old) =
  Done ((ESNOTFND, Some NULL), []).
Proof.
  intros Hd Hs Hn Hr Hrd Hne Hno.
  destruct (needle_head _ _ _ Hn) as (c & Hc & Hnul).
  rewrite (strcasestr_s_validated _ _ _ _ _ _ _ Hd Hs Hc), Hnul. simpl.
  destruct (Nat.eqb_spec dest src) as [E|_]; [contradiction|].
  rewrite (strcasestr_outer_not_found _ _ Hn Hr _ _ _ Hrd Hno), bind_ret_l.
  reflexivity.
Qed.

(** C5. strcasestr_s compares by uppercase normalization: a haystack character
    [a] and a needle character [b] match exactly when
    [toupper a = toupper b].  With that comparison the function finds the
    leftmost position at which the bounded needle matches the bounded
    haystack (EOK, [*substring = dest + p]), and when no position matches it
    returns ESNOTFND with [*substring] reset to NULL. *)
Theorem strcasestr_s_case_insensitive m dest dmax src slen old :
  valid_max RSIZE_MAX_STR dmax -> valid_max RSIZE_MAX_STR slen ->
  bounded (view m src) slen <> [] ->
  readable (view m src) slen ->
  (forall a b, same_upper a b = true <-> toupper a = toupper b) /\
  (forall p,
     leftmost same_upper (bounded (view m src) slen) (bounded (view m dest) dmax) p ->
     strcasestr_s RSIZE_MAX_STR m (Ptr dest) dmax (Ptr src) slen (Some old) =
     Done ((EOK, Some (Ptr (dest + p))), [])) /\
  (readable (view m dest) dmax -> dest <> src ->
   (forall p, ~ occurs_at same_upper (bounded (view m src) slen)
                  (bounded (view m dest) dmax) p) ->
   strcasestr_s RSIZE_MAX_STR m (Ptr dest) dmax (Ptr src) slen (Some old) =
   Done ((ESNOTFND, Some NULL), [])).
Proof.
  intros Hd Hs Hn Hr. split; [|split].
  - intros a b. unfold same_upper. apply Ascii.eqb_eq.
  - intros p Hp. apply strcasestr_s_match; assumption.
  - intros Hrd Hne Hno. apply strcasestr_s_no_match; assumption.
Qed.

(** A readable view whose bounded prefix is empty starts with the
    terminator. *)
Lemma empty_needle_head m src slen :
  (slen =? 0)%N = false ->
  bounded (view m src) slen = [] -> readable (view m src) slen ->
  nth_error m src = Some zero.
Proof.
  intros Hs Hb Hr. unfold readable in Hr. rewrite Hb in Hr.
  destruct (view m src) as [|c r] eqn:Hv; [simpl in Hr; lia|].
  rewrite bounded_cons in Hb. unfold nonzero, truthy, is_nul in Hb.
  rewrite Hs in Hb. simpl in Hb.
  destruct (Ascii.eqb_spec c zero) as [->|]; [|discriminate].
  apply (view_cons _ _ _ _ Hv).
Qed.

(** X11. strstr_s depends on the bounded prefixes of its buffers only (and
    so does strcasestr_s, in the lemma after this one): two
    memories in which the bounded needle and the bounded haystack are the
    same, and in which the scans can stop inside memory, give the same
    result. *)
Lemma strstr_s_bounded_prefixes_only m m' dest dmax src slen old :
  valid_max RSIZE_MAX_STR dmax -> valid_max RSIZE_MAX_STR slen ->
  bounded (view m' src) slen = bounded (view m src) slen ->
  bounded (view m' dest) dmax = bounded (view m dest) dmax ->
  readable (view m src) slen -> readable (view m' src) slen ->
  readable (view m dest) dmax -> readable (view m' dest) dmax ->
  strstr_s RSIZE_MAX_STR m' (Ptr dest) dmax (Ptr src) slen (Some old) =
  strstr_s RSIZE_MAX_STR m (Ptr dest) dmax (Ptr src) slen (Some old).
Proof.
  intros Hd Hs Hn' Hh' Hr Hr' Hrd Hrd'.
  assert (Hcase : bounded (view m src) slen = [] \/
                  bounded (view m src) slen <> []).
  { destruct (bounded (view m src) slen); [left; reflexivity|right; discriminate]. }
  destruct Hcase as [Hb|Hne].
  - pose proof (proj1 (valid_max_tests _ Hs)) as Hs0.
    rewrite (strstr_s_validated _ _ _ _ _ _ _ Hd Hs
               (empty_needle_head _ _ _ Hs0 Hb Hr)).
    rewrite Hb in Hn'.
    rewrite (strstr_s_validated _ _ _ _ _ _ _ Hd Hs
               (empty_needle_head _ _ _ Hs0 Hn' Hr')).
    reflexivity.
  - assert (Hne' : bounded (view m' src) slen <> []) by (rewrite Hn'; exact Hne).
    destruct (Nat.eq_dec dest src) as [->|Hneq].
    + destruct (needle_head _ _ _ Hne) as (c & Hc & _).
      destruct (needle_head _ _ _ Hne') as (c' & Hc' & _).
      rewrite (strstr_s_validated _ _ _ _ _ _ _ Hd Hs Hc).
      rewrite (strstr_s_validated _ _ _ _ _ _ _ Hd Hs Hc').
      rewrite Nat.eqb_refl, !orb_true_r. reflexivity.
    + destruct (occurrence_decided same_char (bounded (view m src) slen)
                  (bounded (view m dest) dmax) Hne) as [[p Hp]|Hno].
      * rewrite (strstr_s_leftmost_found m) with (p := p) by assumption.
        apply strstr_s_leftmost_found; try assumption.
        rewrite Hn', Hh'. exact Hp.
      * rewrite (strstr_s_no_match m) by assumption.
        apply strstr_s_no_match; try assumption.
        rewrite Hn', Hh'. exact Hno.
Qed.

Lemma strcasestr_s_bounded_prefixes_only m m' dest dmax src slen old :
  valid_max RSIZE_MAX_STR dmax -> valid_max RSIZE_MAX_STR slen ->
  bounded (view m' src) slen = bounded (view m src) slen ->
  bounded (view m' dest) dmax = bounded (view m dest) dmax ->
  readable (view m src) slen -> readable (view m' src) slen ->
  readable (view m dest) dmax -> readable (view m' dest) dmax ->
  strcasestr_s RSIZE_MAX_STR m' (Ptr dest) dmax (Ptr src) slen (Some old) =
  strcasestr_s RSIZE_MAX_STR m (Ptr dest) dmax (Ptr src) slen (Some old).
Proof.
  intros Hd Hs Hn' Hh' Hr Hr' Hrd Hrd'.
  assert (Hcase : bounded (view m src) slen = [] \/
                  bounded (view m src) slen <> []).
  { destruct (bounded (view m src) slen); [left; reflexivity|right; discriminate]. }
  destruct Hcase as [Hb|Hne].
  - pose proof (proj1 (valid_max_tests _ Hs)) as Hs0.
    rewrite (strcasestr_s_validated _ _ _ _ _ _ _ Hd Hs
               (empty_needle_head _ _ _ Hs0 Hb Hr)).
    rewrite Hb in Hn'.
    rewrite (strcasestr_s_validated _ _ _ _ _ _ _ Hd Hs
               (empty_needle_head _ _ _ Hs0 Hn' Hr')).
    reflexivity.
  - assert (Hne' : bounded (view m' src) slen <> []) by (rewrite Hn'; exact Hne).
    destruct (Nat.eq_dec dest src) as [->|Hneq].
    + destruct (needle_head _ _ _ Hne) as (c & Hc & _).
      destruct (needle_head _ _ _ Hne') as (c' & Hc' & _).
      rewrite (strcasestr_s_validated _ _ _ _ _ _ _ Hd Hs Hc).
      rewrite (strcasestr_s_validated _ _ _ _ _ _ _ Hd Hs Hc').
      rewrite Nat.eqb_refl, !orb_true_r. reflexivity.
    + destruct (occurrence_decided same_upper (bounded (view m src) slen)
                  (bounded (view m dest) dmax) Hne) as [[p Hp]|Hno].
      * rewrite (strcasestr_s_match m) with (p := p) by assumption.
        apply strcasestr_s_match; try assumption.
        rewrite Hn', Hh'. exact Hp.
      * rewrite (strcasestr_s_no_match m) by assumption.
        apply strcasestr_s_no_match; try assumption.
        rewrite Hn', Hh'. exact Hno.
Qed.

(** C4. When the needle has no terminator among its first [slen] cells,
    only those cells count: if they match the bounded haystack at the
    candidate position [p] the scan reaches (the leftmost such position; [p']
    for the comparison that ignores case), the search returns EOK with
    [*substring = dest + p], and a memory [m'] that differs from [m] in the
    needle cells from index [slen] on (same first [slen] needle cells, same
    bounded haystack) gives the same status and position.  The cell at index
    [slen] is read and has to exist. *)
Theorem truncated_needle_success m m' dest dmax src slen old p p' :
  valid_max RSIZE_MAX_STR dmax -> valid_max RSIZE_MAX_STR slen ->
  length (bounded (view m src) slen) = N.to_nat slen ->
  N.to_nat slen < length (view m src) ->
  N.to_nat slen < length (view m' src) ->
  firstn (N.to_nat slen) (view m' src) = firstn (N.to_nat slen) (view m src) ->
  bounded (view m' dest) dmax = bounded (view m dest) dmax ->
  leftmost same_char (firstn (N.to_nat slen) (view m src))
    (bounded (view m dest) dmax) p ->
  leftmost same_upper (firstn (N.to_nat slen) (view m src))
    (bounded (view m dest) dmax) p' ->
  strstr_s RSIZE_MAX_STR m (Ptr dest) dmax (Ptr src) slen (Some old) =
    Done ((EOK, Some (Ptr (dest + p))), []) /\
  strstr_s RSIZE_MAX_STR m' (Ptr dest) dmax (Ptr src) slen (Some old) =
    Done ((EOK, Some (Ptr (dest + p))), []) /\
  strcasestr_s RSIZE_MAX_STR m (Ptr dest) dmax (Ptr src) slen (Some old) =
    Done ((EOK, Some (Ptr (dest + p'))), []) /\
  strcasestr_s RSIZE_MAX_STR m' (Ptr dest) dmax (Ptr src) slen (Some old) =
    Done ((EOK, Some (Ptr (dest + p'))), []).
Proof.
  intros Hd Hs Hfull Hr Hr' Hsame Hhay Hp Hp'.
  assert (Hn : bounded (view m src) slen = firstn (N.to_nat slen) (view m src)).
  { apply bounded_nat_full. exact Hfull. }
  assert (Hn' : bounded (view m' src) slen = bounded (view m src) slen).
  { unfold bounded.
    rewrite <- (bounded_nat_firstn (view m' src)), Hsame.
    apply bounded_nat_firstn. }
  assert (Hne : bounded (view m src) slen <> []).
  { intro E. rewrite E in Hfull. simpl in Hfull.
    destruct Hs as [Hs _]. lia. }
  rewrite <- Hn in Hp, Hp'.
  assert (Hrd : readable (view m src) slen) by (unfold readable; lia).
  assert (Hrd' : readable (view m' src) slen).
  { unfold readable. rewrite Hn'. lia. }
  repeat split.
  - apply strstr_s_leftmost_found; assumption.
  - apply strstr_s_leftmost_found; try assumption; rewrite Hn'; try assumption.
    rewrite Hhay. assumption.
  - apply strcasestr_s_match; assumption.
  - apply strcasestr_s_match; try assumption; rewrite Hn'; try assumption.
    rewrite Hhay. assumption.
Qed.

(** C6. After validation, when the first needle cell is the terminator or
    the needle pointer equals the haystack pointer, strstr_s and strcasestr_s
    return EOK with [*substring = dest] and report nothing, for every memory:
    the haystack's cells are not read (they need not even exist). *)
Theorem empty_or_identical_needle m dest dmax src slen old c :
  valid_max RSIZE_MAX_STR dmax -> valid_max RSIZE_MAX_STR slen ->
  nth_error m src = Some c ->
  c = zero \/ dest = src ->
  strstr_s RSIZE_MAX_STR m (Ptr dest) dmax (Ptr src) slen (Some old) =
    Done ((EOK, Some (Ptr dest)), []) /\
  strcasestr_s RSIZE_MAX_STR m (Ptr dest) dmax (Ptr src) slen (Some old) =
    Done ((EOK, Some (Ptr dest)), []).
Proof.
  intros Hd Hs Hc Hcase.
  rewrite (strstr_s_validated _ _ _ _ _ _ _ Hd Hs Hc).
  rewrite (strcasestr_s_validated _ _ _ _ _ _ _ Hd Hs Hc).
  assert (E : (is_nul c || (dest =? src)%nat)%bool = true).
  { destruct Hcase as [->| ->].
    - reflexivity.
    - rewrite Nat.eqb_refl. apply orb_true_r. }
  rewrite E. split; reflexivity.
Qed.

Lemma prefix_by_short eqc n h :
  length h < length n -> prefix_by eqc n h = false.
Proof.
  intros H. destruct (prefix_by eqc n h) eqn:E; [|reflexivity].
  apply prefix_by_length in E. lia.
Qed.

(** C10. A candidate whose remaining bounded haystack is shorter than the
    bounded needle is rejected by the comparison of both functions, also when
    every character compared was equal; so for a needle buffer other than the
    haystack buffer whose bounded needle is longer than the bounded haystack,
    strstr_s and strcasestr_s return ESNOTFND with [*substring] reset to NULL
    and report nothing. *)
Theorem haystack_budget_exhausted m dest dmax src slen old :
  valid_max RSIZE_MAX_STR dmax -> valid_max RSIZE_MAX_STR slen ->
  readable (view m src) slen -> readable (view m dest) dmax ->
  dest <> src ->
  length (bounded (view m dest) dmax) < length (bounded (view m src) slen) ->
  (forall d dlen,
     readable d dlen ->
     length (bounded d dlen) < length (bounded (view m src) slen) ->
     strstr_inner (view m src) d slen dlen = ret false /\
     strcasestr_inner (view m src) d slen dlen = ret false) /\
  strstr_s RSIZE_MAX_STR m (Ptr dest) dmax (Ptr src) slen (Some old) =
    Done ((ESNOTFND, Some NULL), []) /\
  strcasestr_s RSIZE_MAX_STR m (Ptr dest) dmax (Ptr src) slen (Some old) =
    Done ((ESNOTFND, Some NULL), []).
Proof.
  intros Hd Hs Hr Hrd Hne Hshort.
  assert (Hn : bounded (view m src) slen <> []).
  { intro E. rewrite E in Hshort. simpl in Hshort. lia. }
  split; [|split].
  - intros d dlen Hrd' Hlt.
    rewrite strstr_inner_spec, strcasestr_inner_spec; auto.
    rewrite !prefix_by_short by exact Hlt. split; reflexivity.
  - apply strstr_s_no_match; try assumption.
    intros p Hp. apply (occurs_at_length _ _ _ _ Hn) in Hp. lia.
  - apply strcasestr_s_no_match; try assumption.
    intros p Hp. apply (occurs_at_length _ _ _ _ Hn) in Hp. lia.
Qed.

End Properties.

(** ** The complement span, after validation *)

Section Span.

Variable RSIZE_MAX_STR : rsize_t.

(** The ceiling is itself an [rsize_t]. *)
Hypothesis RSIZE_MAX_STR_fits : (RSIZE_MAX_STR <= SIZE_MAX)%N.

(** What strcspn_s does after validation. *)
Lemma strcspn_s_span m dest dmax src slen old :
  valid_max RSIZE_MAX_STR dmax -> valid_max RSIZE_MAX_STR slen ->
  span_excluding (bounded (view m src) slen) (bounded (view m dest) dmax)
    < length (view m dest) ->
  (0 < span_excluding (bounded (view m src) slen) (bounded (view m dest) dmax) ->
   readable (view m src) slen) ->
  strcspn_s RSIZE_MAX_STR m (Ptr dest) dmax (Ptr src) slen (Some old) =
    Done ((EOK,
           Some (N.of_nat (span_excluding (bounded (view m src) slen)
                             (bounded (view m dest) dmax)))), []).
Proof.
  intros Hd Hs Hk Hsrc.
  unfold strcspn_s.
  destruct (valid_max_tests _ _ Hd) as [-> ->].
  destruct (valid_max_tests _ _ Hs) as [-> ->].
  rewrite strcspn_outer_spec; try assumption.
  - rewrite bind_ret_l. reflexivity.
  - pose proof (proj1 (span_excluding_spec (bounded (view m src) slen)
                         (bounded (view m dest) dmax))) as H1.
    pose proof (bounded_nat_length_max (view m dest) (N.to_nat dmax)) as H2.
    unfold bounded in *. destruct Hd as [_ Hd]. lia.
Qed.

(** C7. After validation strcspn_s returns EOK, reports nothing and sets
    [*count] to the number [k] of leading characters of the bounded subject
    that are not in the bounded exclusion set: [k] is at most the length of
    the bounded subject, no character before index [k] is in the set, and
    when [k] is less than that length the character at index [k] is in the
    set.  There is no other status.  The subject cell at which the scan stops
    is read, and so is the cell that ends the exclusion set once one subject
    character has been found outside the set: both have to lie inside
    memory. *)
Theorem strcspn_s_counts_span m dest dmax src slen old :
  valid_max RSIZE_MAX_STR dmax -> valid_max RSIZE_MAX_STR slen ->
  span_excluding (bounded (view m src) slen) (bounded (view m dest) dmax)
    < length (view m dest) ->
  (0 < span_excluding (bounded (view m src) slen) (bounded (view m dest) dmax) ->
   readable (view m src) slen) ->
  strcspn_s RSIZE_MAX_STR m (Ptr dest) dmax (Ptr src) slen (Some old) =
    Done ((EOK,
           Some (N.of_nat (span_excluding (bounded (view m src) slen)
                             (bounded (view m dest) dmax)))), []) /\
  span_excluding (bounded (view m src) slen) (bounded (view m dest) dmax)
    <= length (bounded (view m dest) dmax) /\
  (forall i c,
     i < span_excluding (bounded (view m src) slen)
           (bounded (view m dest) dmax) ->
     nth_error (bounded (view m dest) dmax) i = Some c ->
     existsb (Ascii.eqb c) (bounded (view m src) slen) = false) /\
  (span_excluding (bounded (view m src) slen) (bounded (view m dest) dmax)
     < length (bounded (view m dest) dmax) ->
   exists c,
     nth_error (bounded (view m dest) dmax)
       (span_excluding (bounded (view m src) slen)
          (bounded (view m dest) dmax)) = Some c /\
     existsb (Ascii.eqb c) (bounded (view m src) slen) = true).
Proof.
  intros Hd Hs Hk Hsrc.
  split; [apply strcspn_s_span; assumption | apply span_excluding_spec].
Qed.

(** X12. strcspn_s, too, depends on the bounded prefixes of its buffers only:
    two memories in which the bounded exclusion string and the bounded subject
    are the same, and in which the scans can stop inside memory, give the same
    status, count and reports. *)
Lemma strcspn_s_bounded_prefixes_only m m' dest dmax src slen old :
  valid_max RSIZE_MAX_STR dmax -> valid_max RSIZE_MAX_STR slen ->
  bounded (view m' src) slen = bounded (view m src) slen ->
  bounded (view m' dest) dmax = bounded (view m dest) dmax ->
  readable (view m src) slen -> readable (view m' src) slen ->
  readable (view m dest) dmax -> readable (view m' dest) dmax ->
  strcspn_s RSIZE_MAX_STR m' (Ptr dest) dmax (Ptr src) slen (Some old) =
  strcspn_s RSIZE_MAX_STR m (Ptr dest) dmax (Ptr src) slen (Some old).
Proof.
  intros Hd Hs Hn' Hh' Hr Hr' Hrd Hrd'.
  pose proof (proj1 (span_excluding_spec (bounded (view m src) slen)
                       (bounded (view m dest) dmax))) as Hle.
  assert (Hk : span_excluding (bounded (view m src) slen)
                 (bounded (view m dest) dmax) < length (view m dest)).
  { unfold readable in Hrd. lia. }
  assert (Hk' : span_excluding (bounded (view m' src) slen)
                  (bounded (view m' dest) dmax) < length (view m' dest)).
  { rewrite Hn', Hh'. unfold readable in Hrd'. rewrite Hh' in Hrd'. lia. }
  rewrite (strcspn_s_span m dest dmax src slen old Hd Hs Hk (fun _ => Hr)).
  rewrite (strcspn_s_span m' dest dmax src slen old Hd Hs Hk' (fun _ => Hr')).
  rewrite Hn', Hh'. reflexivity.
Qed.

End Span.

(** ** The all-uppercase predicate *)

Section Uppercase.

Variable RSIZE_MAX_STR : rsize_t.

Lemma in_A_Z_truthy c : in_A_Z c = true -> truthy c = true.
Proof.
  unfold truthy, is_nul. destruct (Ascii.eqb_spec c zero) as [->|]; simpl.
  - discriminate.
  - reflexivity.
Qed.

Lemma strisuppercase_loop_spec up c rest : forall dmax,
  forallb in_A_Z up = true -> in_A_Z c = false ->
  strisuppercase_loop (up ++ c :: rest) dmax = ret (is_nul c).
Proof.
  induction up as [|u up IH]; intros dmax Hup Hc; simpl.
  - unfold truthy. destruct (is_nul c); simpl; [reflexivity|].
    unfold in_A_Z in Hc. apply negb_false_iff in Hc. rewrite Hc. reflexivity.
  - simpl in Hup. apply andb_true_iff in Hup. destruct Hup as [Hu Hup].
    rewrite (in_A_Z_truthy _ Hu).
    unfold in_A_Z in Hu. apply negb_true_iff in Hu. rewrite Hu.
    apply IH; assumption.
Qed.

(** C8. For a valid [dmax], let the cells from [dest] on be a run [up] of
    letters 'A'..'Z' followed by a cell [c] outside that range (the
    terminator included).  strisuppercase_s returns false when the run is
    empty and [c] is the terminator (the empty string), false when [c] is not
    the terminator, and true when the run is not empty and [c] is the
    terminator; it reports nothing.  A null [dest], a zero [dmax] and a
    [dmax] above the ceiling each give false as well, with the violation
    reported once to the handler. *)
Theorem strisuppercase_s_result m dest dmax up c rest :
  valid_max RSIZE_MAX_STR dmax ->
  view m dest = up ++ c :: rest ->
  forallb in_A_Z up = true -> in_A_Z c = false ->
  strisuppercase_s RSIZE_MAX_STR m (Ptr dest) dmax =
    Done (match up with [] => false | _ :: _ => is_nul c end, []) /\
  strisuppercase_s RSIZE_MAX_STR m NULL dmax =
    Done (false, [("strisuppercase_s: dest is null"%string, ESNULLP)]) /\
  strisuppercase_s RSIZE_MAX_STR m (Ptr dest) 0 =
    Done (false, [("strisuppercase_s: dmax is 0"%string, ESZEROL)]) /\
  (forall big, (RSIZE_MAX_STR < big)%N ->
     strisuppercase_s RSIZE_MAX_STR m (Ptr dest) big =
       Done (false, [("strisuppercase_s: dmax exceeds max"%string, ESLEMAX)])).
Proof.
  intros Hd Hv Hup Hc. split; [|split; [|split]]; try reflexivity.
  - unfold strisuppercase_s.
    destruct (valid_max_tests _ _ Hd) as [-> ->].
    unfold load. rewrite Hv.
    destruct up as [|u up].
    + simpl in Hv. rewrite (proj1 (view_cons _ _ _ _ Hv)), bind_ret_l.
      destruct (is_nul c) eqn:Hnul; [reflexivity|].
      rewrite (strisuppercase_loop_spec [] c rest dmax Hup Hc), Hnul.
      reflexivity.
    + simpl in Hv. rewrite (proj1 (view_cons _ _ _ _ Hv)), bind_ret_l.
      simpl in Hup. destruct (proj1 (andb_true_iff _ _) Hup) as [Hu _].
      apply in_A_Z_truthy in Hu. unfold truthy in Hu.
      apply negb_true_iff in Hu. rewrite Hu.
      apply (strisuppercase_loop_spec (u :: up) c rest dmax Hup Hc).
  - intros big Hbig. unfold strisuppercase_s.
    destruct (N.eqb_spec big 0); [lia|].
    apply N.ltb_lt in Hbig. rewrite Hbig. reflexivity.
Qed.

Lemma strisuppercase_loop_ignores_dmax d : forall dmax dmax',
  strisuppercase_loop d dmax = strisuppercase_loop d dmax'.
Proof.
  induction d as [|c d IH]; intros dmax dmax'; simpl; [reflexivity|].
  destruct (truthy c); [|reflexivity].
  destruct (Ascii.ltb c "A" || Ascii.ltb "Z" c)%bool; [reflexivity|].
  apply IH.
Qed.

(** X13. After validation the result of strisuppercase_s is the same for
    every declared length, on every memory: [dmax] is decremented in the loop
    and never tested. *)
Lemma strisuppercase_s_ignores_dmax m dest dmax dmax' :
  valid_max RSIZE_MAX_STR dmax -> valid_max RSIZE_MAX_STR dmax' ->
  strisuppercase_s RSIZE_MAX_STR m dest dmax =
  strisuppercase_s RSIZE_MAX_STR m dest dmax'.
Proof.
  intros H H'. unfold strisuppercase_s. destruct dest; [reflexivity|].
  destruct (valid_max_tests _ _ H) as [-> ->].
  destruct (valid_max_tests _ _ H') as [-> ->].
  rewrite (strisuppercase_loop_ignores_dmax _ dmax dmax'). reflexivity.
Qed.

End Uppercase.

(** ** Validation and rejected calls *)

Section Validation.

Variable RSIZE_MAX_STR : rsize_t.

Lemma strstr_s_first_failing m dest dmax src slen substring chk :
  first_failing RSIZE_MAX_STR search_order (is_none substring)
    dest dmax src slen = Some chk ->
  strstr_s RSIZE_MAX_STR m dest dmax src slen substring =
  Done ((kind_of chk, reset NULL substring),
        [(message "strstr_s" "substring" chk, kind_of chk)]).
Proof.
  unfold first_failing, search_order, strstr_s. simpl.
  destruct substring; simpl; repeat validation_cases;
    intros H; inversion H; reflexivity.
Qed.

Lemma strcasestr_s_first_failing m dest dmax src slen substring chk :
  first_failing RSIZE_MAX_STR search_order (is_none substring)
    dest dmax src slen = Some chk ->
  strcasestr_s RSIZE_MAX_STR m dest dmax src slen substring =
  Done ((kind_of chk, reset NULL substring),
        [(message "strcasestr_s" "substring" chk, kind_of chk)]).
Proof.
  unfold first_failing, search_order, strcasestr_s. simpl.
  destruct substring; simpl; repeat validation_cases;
    intros H; inversion H; reflexivity.
Qed.

Lemma strcspn_s_first_failing m dest dmax src slen count chk :
  first_failing RSIZE_MAX_STR span_order (is_none count)
    dest dmax src slen = Some chk ->
  strcspn_s RSIZE_MAX_STR m dest dmax src slen count =
  Done ((kind_of chk, reset 0%N count),
        [(message "strcspn_s" "count" chk, kind_of chk)]).
Proof.
  unfold first_failing, span_order, strcspn_s. simpl.
  destruct count; simpl; repeat validation_cases;
    intros H; inversion H; reflexivity.
Qed.

Lemma strisuppercase_s_first_failing m dest dmax src slen chk :
  first_failing RSIZE_MAX_STR predicate_order false
    dest dmax src slen = Some chk ->
  strisuppercase_s RSIZE_MAX_STR m dest dmax =
  Done (false, [(message "strisuppercase_s" EmptyString chk, kind_of chk)]).
Proof.
  unfold first_failing, predicate_order, strisuppercase_s. simpl.
  repeat validation_cases; intros H; inversion H; reflexivity.
Qed.

(** C2, as the code has it.  Every operation performs its checks in a fixed
    order and the first failing check alone decides what is reported, which
    status is returned, and that nothing else happens.  strstr_s and
    strcasestr_s check the output pointer, dest, dmax (zero, then ceiling),
    src, slen (zero, then ceiling); strcspn_s checks the output pointer, dest
    and src for null before dmax and slen; strisuppercase_s checks dest and
    dmax and returns false. *)
Theorem validation_order m dest dmax src slen substring count :
  (forall chk,
     first_failing RSIZE_MAX_STR search_order (is_none substring)
       dest dmax src slen = Some chk ->
     strstr_s RSIZE_MAX_STR m dest dmax src slen substring =
       Done ((kind_of chk, reset NULL substring),
             [(message "strstr_s" "substring" chk, kind_of chk)]) /\
     strcasestr_s RSIZE_MAX_STR m dest dmax src slen substring =
       Done ((kind_of chk, reset NULL substring),
             [(message "strcasestr_s" "substring" chk, kind_of chk)])) /\
  (forall chk,
     first_failing RSIZE_MAX_STR span_order (is_none count)
       dest dmax src slen = Some chk ->
     strcspn_s RSIZE_MAX_STR m dest dmax src slen count =
       Done ((kind_of chk, reset 0%N count),
             [(message "strcspn_s" "count" chk, kind_of chk)])) /\
  (forall chk,
     first_failing RSIZE_MAX_STR predicate_order false
       dest dmax src slen = Some chk ->
     strisuppercase_s RSIZE_MAX_STR m dest dmax =
       Done (false, [(message "strisuppercase_s" EmptyString chk, kind_of chk)])).
Proof.
  split; [|split]; intros chk H.
  - split.
    + apply strstr_s_first_failing; exact H.
    + apply strcasestr_s_first_failing; exact H.
  - apply strcspn_s_first_failing; exact H.
  - apply (strisuppercase_s_first_failing m dest dmax src slen); exact H.
Qed.

(** C9, as the code has it.  A call with a null [dest], or with a declared
    length that is zero or above the ceiling, is rejected by the first check
    to fail in the operation's own order: it makes exactly one report, reads
    no memory (the result is the same for every memory), leaves the output at
    NULL or zero and returns the status of the violation it reports.  That
    violation need not be the one of [dmax]: strcspn_s reports a null [src]
    first.  strisuppercase_s returns false.  A search over readable buffers
    in which the needle occurs nowhere returns ESNOTFND, resets the output to
    NULL and makes no report. *)
Theorem rejected_call_or_not_found
    m dest dmax src slen old oldc m2 dest2 dmax2 src2 slen2 old2 :
  dest = NULL \/ dmax = 0%N \/ (RSIZE_MAX_STR < dmax)%N \/
    slen = 0%N \/ (RSIZE_MAX_STR < slen)%N ->
  valid_max RSIZE_MAX_STR dmax2 -> valid_max RSIZE_MAX_STR slen2 ->
  bounded (view m2 src2) slen2 <> [] ->
  readable (view m2 src2) slen2 -> readable (view m2 dest2) dmax2 ->
  dest2 <> src2 ->
  (forall p, ~ occurs_at same_char (bounded (view m2 src2) slen2)
                 (bounded (view m2 dest2) dmax2) p) ->
  (forall p, ~ occurs_at same_upper (bounded (view m2 src2) slen2)
                 (bounded (view m2 dest2) dmax2) p) ->
  match first_failing RSIZE_MAX_STR search_order false dest dmax src slen with
  | Some chk =>
      strstr_s RSIZE_MAX_STR m dest dmax src slen (Some old) =
        Done ((kind_of chk, Some NULL),
              [(message "strstr_s" "substring" chk, kind_of chk)]) /\
      strcasestr_s RSIZE_MAX_STR m dest dmax src slen (Some old) =
        Done ((kind_of chk, Some NULL),
              [(message "strcasestr_s" "substring" chk, kind_of chk)])
  | None => False
  end /\
  match first_failing RSIZE_MAX_STR span_order false dest dmax src slen with
  | Some chk =>
      strcspn_s RSIZE_MAX_STR m dest dmax src slen (Some oldc) =
        Done ((kind_of chk, Some 0%N),
              [(message "strcspn_s" "count" chk, kind_of chk)])
  | None => False
  end /\
  (dest = NULL \/ dmax = 0%N \/ (RSIZE_MAX_STR < dmax)%N ->
   strisuppercase_s RSIZE_MAX_STR m dest dmax =
     Done (false,
           [(message "strisuppercase_s" EmptyString (primary_check dest dmax),
             kind_of (primary_check dest dmax))])) /\
  strstr_s RSIZE_MAX_STR m2 (Ptr dest2) dmax2 (Ptr src2) slen2 (Some old2) =
    Done ((ESNOTFND, Some NULL), []) /\
  strcasestr_s RSIZE_MAX_STR m2 (Ptr dest2) dmax2 (Ptr src2) slen2 (Some old2) =
    Done ((ESNOTFND, Some NULL), []).
Proof.
  intros Hbad Hd Hs Hn Hr Hrd Hne Hno Hno'.
  assert (Hsome : forall order,
    In DestNull order -> In DmaxZero order -> In DmaxMax order ->
    In SlenZero order -> In SlenMax order ->
    first_failing RSIZE_MAX_STR order false dest dmax src slen <> None).
  { intros order H1 H2 H3 H4 H5 E. unfold first_failing in E.
    pose proof (find_none _ _ E) as Hall.
    destruct Hbad as [->|[->|[Hbad|[->|Hbad]]]].
    - specialize (Hall _ H1). discriminate.
    - specialize (Hall _ H2). discriminate.
    - specialize (Hall _ H3). simpl in Hall.
      apply N.ltb_lt in Hbad. congruence.
    - specialize (Hall _ H4). discriminate.
    - specialize (Hall _ H5). simpl in Hall.
      apply N.ltb_lt in Hbad. congruence. }
  split; [|split; [|split; [|split]]].
  - destruct (first_failing RSIZE_MAX_STR search_order false dest dmax src slen)
      as [chk|] eqn:E.
    + split.
      * apply (strstr_s_first_failing m dest dmax src slen (Some old)).
        exact E.
      * apply (strcasestr_s_first_failing m dest dmax src slen (Some old)).
        exact E.
    + apply (Hsome search_order); simpl; auto 10.
  - destruct (first_failing RSIZE_MAX_STR span_order false dest dmax src slen)
      as [chk|] eqn:E.
    + apply (strcspn_s_first_failing m dest dmax src slen (Some oldc)).
      exact E.
    + apply (Hsome span_order); simpl; auto 10.
  - intros Hprim.
    apply (strisuppercase_s_first_failing m dest dmax src slen).
    unfold first_failing, predicate_order, primary_check. simpl.
    destruct dest as [|a]; simpl; [reflexivity|].
    destruct (N.eqb_spec dmax 0); [reflexivity|].
    destruct Hprim as [Hp|[Hp|Hp]]; [discriminate|contradiction|].
    apply N.ltb_lt in Hp. rewrite Hp. reflexivity.
  - apply strstr_s_no_match; assumption.
  - apply strcasestr_s_no_match; assumption.
Qed.

End Validation.

(** * Worked examples

    The cases the specification lists, run on the code, and the theorems
    above applied to them. *)

(** "abd" is found in "abcabd" at offset 3, after the near miss at 0. *)
Lemma strstr_s_leftmost_match_witness :
  strstr_s ceiling_4k mem_abcabd_abd (Ptr 0) 6 (Ptr 7) 3 (Some NULL) =
  Done ((EOK, Some (Ptr 3)), []).
Proof.
  apply (strstr_s_leftmost_match ceiling_4k mem_abcabd_abd 0 6 7 3 NULL 3).
  - valid_4k.
  - valid_4k.
  - vm_compute. discriminate.
  - vm_compute. lia.
  - leftmost_here.
Defined.

(** The specification's truncated needle: "abcX" with [slen = 3] matches
    "abcdef" at offset 0, whatever the fourth needle cell holds. *)
Lemma truncated_needle_success_witness :
  strstr_s ceiling_4k mem_abcdef_abcX (Ptr 0) 6 (Ptr 7) 3 (Some NULL) =
    Done ((EOK, Some (Ptr 0)), []) /\
  strstr_s ceiling_4k mem_abcdef_abcY (Ptr 0) 6 (Ptr 7) 3 (Some NULL) =
    Done ((EOK, Some (Ptr 0)), []) /\
  strcasestr_s ceiling_4k mem_abcdef_abcX (Ptr 0) 6 (Ptr 7) 3 (Some NULL) =
    Done ((EOK, Some (Ptr 0)), []) /\
  strcasestr_s ceiling_4k mem_abcdef_abcY (Ptr 0) 6 (Ptr 7) 3 (Some NULL) =
    Done ((EOK, Some (Ptr 0)), []).
Proof.
  apply (truncated_needle_success ceiling_4k mem_abcdef_abcX mem_abcdef_abcY
           0 6 7 3 NULL 0 0).
  - valid_4k.
  - valid_4k.
  - vm_compute. reflexivity.
  - vm_compute. lia.
  - vm_compute. lia.
  - vm_compute. reflexivity.
  - vm_compute. reflexivity.
  - leftmost_here.
  - leftmost_here.
Defined.

(** The specification's case-insensitive search: "WORLD" is found in
    "Hello World" at offset 6. *)
Lemma strcasestr_s_case_insensitive_witness :
  strcasestr_s ceiling_4k mem_hello_world (Ptr 0) 11 (Ptr 12) 5 (Some NULL) =
  Done ((EOK, Some (Ptr 6)), []).
Proof.
  refine (proj1 (proj2 (strcasestr_s_case_insensitive ceiling_4k
                          mem_hello_world 0 11 12 5 NULL _ _ _ _)) 6 _).
  - valid_4k.
  - valid_4k.
  - vm_compute. discriminate.
  - vm_compute. lia.
  - leftmost_here.
Defined.

(** An empty needle, and a needle that is the haystack itself. *)
Lemma empty_or_identical_needle_witness :
  (strstr_s ceiling_4k mem_abc_empty (Ptr 0) 3 (Ptr 4) 1 (Some NULL) =
     Done ((EOK, Some (Ptr 0)), []) /\
   strcasestr_s ceiling_4k mem_abc_empty (Ptr 0) 3 (Ptr 4) 1 (Some NULL) =
     Done ((EOK, Some (Ptr 0)), [])) /\
  (strstr_s ceiling_4k mem_abcdef_xyz (Ptr 0) 2 (Ptr 0) 6 (Some NULL) =
     Done ((EOK, Some (Ptr 0)), []) /\
   strcasestr_s ceiling_4k mem_abcdef_xyz (Ptr 0) 2 (Ptr 0) 6 (Some NULL) =
     Done ((EOK, Some (Ptr 0)), [])).
Proof.
  split.
  - apply (empty_or_identical_needle ceiling_4k mem_abc_empty 0 3 4 1 NULL zero).
    + valid_4k.
    + valid_4k.
    + reflexivity.
    + left. reflexivity.
  - apply (empty_or_identical_needle ceiling_4k mem_abcdef_xyz 0 2 0 6 NULL "a").
    + valid_4k.
    + valid_4k.
    + reflexivity.
    + right. reflexivity.
Defined.

(** The specification's complement span: "12345abc" against "abc" is 5. *)
Lemma strcspn_s_counts_span_witness :
  strcspn_s ceiling_4k mem_digits_abc (Ptr 0) 8 (Ptr 9) 3 (Some 77%N) =
  Done ((EOK, Some 5%N), []).
Proof.
  refine (proj1 (strcspn_s_counts_span ceiling_4k _ mem_digits_abc
                   0 8 9 3 77%N _ _ _ _)).
  - vm_compute. discriminate.
  - valid_4k.
  - valid_4k.
  - vm_compute. lia.
  - intros _. vm_compute. lia.
Defined.

(** The specification's "HELLO". *)
Lemma strisuppercase_s_result_witness :
  strisuppercase_s ceiling_4k mem_HELLO (Ptr 0) 5 = Done (true, []).
Proof.
  refine (proj1 (strisuppercase_s_result ceiling_4k mem_HELLO 0 5
                   (list_ascii_of_string "HELLO") zero [] _ _ _ _)).
  - valid_4k.
  - reflexivity.
  - reflexivity.
  - reflexivity.
Defined.

(** A null haystack in an empty memory, and the specification's search with
    no occurrence: "xyz" in "abcdef". *)
Lemma rejected_call_or_not_found_witness :
  (strstr_s ceiling_4k [] NULL 6 (Ptr 7) 3 (Some (Ptr 1)) =
     Done ((ESNULLP, Some NULL), [("strstr_s: dest is null"%string, ESNULLP)]) /\
   strcasestr_s ceiling_4k [] NULL 6 (Ptr 7) 3 (Some (Ptr 1)) =
     Done ((ESNULLP, Some NULL),
           [("strcasestr_s: dest is null"%string, ESNULLP)])) /\
  strcspn_s ceiling_4k [] NULL 6 (Ptr 7) 3 (Some 9%N) =
    Done ((ESNULLP, Some 0%N), [("strcspn_s: dest is null"%string, ESNULLP)]) /\
  strisuppercase_s ceiling_4k [] NULL 6 =
    Done (false, [("strisuppercase_s: dest is null"%string, ESNULLP)]) /\
  strstr_s ceiling_4k mem_abcdef_xyz (Ptr 0) 6 (Ptr 7) 3 (Some (Ptr 1)) =
    Done ((ESNOTFND, Some NULL), []) /\
  strcasestr_s ceiling_4k mem_abcdef_xyz (Ptr 0) 6 (Ptr 7) 3 (Some (Ptr 1)) =
    Done ((ESNOTFND, Some NULL), []).
Proof.
  assert (Hbad : @NULL = NULL \/ 6%N = 0%N \/ (ceiling_4k < 6)%N \/
                 3%N = 0%N \/ (ceiling_4k < 3)%N) by (left; reflexivity).
  destruct (rejected_call_or_not_found ceiling_4k [] NULL 6 (Ptr 7) 3 (Ptr 1)
              9%N mem_abcdef_xyz 0 6 7 3 (Ptr 1) Hbad)
    as (H1 & H2 & H3 & H4 & H5).
  - valid_4k.
  - valid_4k.
  - vm_compute. discriminate.
  - vm_compute. lia.
  - vm_compute. lia.
  - discriminate.
  - nowhere.
  - nowhere.
  - split; [exact H1|]. split; [exact H2|]. split; [|split].
    + apply H3. left. reflexivity.
    + exact H4.
    + exact H5.
Defined.

(** The haystack "ab" (dmax 2) is too short for the needle "abc". *)
Lemma haystack_budget_exhausted_witness :
  strstr_s ceiling_4k mem_ab_abc (Ptr 0) 2 (Ptr 3) 3 (Some NULL) =
    Done ((ESNOTFND, Some NULL), []) /\
  strcasestr_s ceiling_4k mem_ab_abc (Ptr 0) 2 (Ptr 3) 3 (Some NULL) =
    Done ((ESNOTFND, Some NULL), []).
Proof.
  refine (proj2 (haystack_budget_exhausted ceiling_4k mem_ab_abc 0 2 3 3 NULL
                   _ _ _ _ _ _)).
  - valid_4k.
  - valid_4k.
  - vm_compute. lia.
  - vm_compute. lia.
  - discriminate.
  - vm_compute. lia.
Defined.

(** The three orders on one call, a valid [dest] with [dmax = 0] and a null
    [src]: strstr_s and strcasestr_s stop at the zero [dmax], strcspn_s at
    the null [src], strisuppercase_s at the zero [dmax]. *)
Lemma validation_order_witness :
  strstr_s ceiling_4k mem_abcdef_xyz (Ptr 0) 0 NULL 3 (Some (Ptr 5)) =
    Done ((ESZEROL, Some NULL), [("strstr_s: dmax is 0"%string, ESZEROL)]) /\
  strcasestr_s ceiling_4k mem_abcdef_xyz (Ptr 0) 0 NULL 3 (Some (Ptr 5)) =
    Done ((ESZEROL, Some NULL),
          [("strcasestr_s: dmax is 0"%string, ESZEROL)]) /\
  strcspn_s ceiling_4k mem_abcdef_xyz (Ptr 0) 0 NULL 3 (Some 7%N) =
    Done ((ESNULLP, Some 0%N), [("strcspn_s: src is null"%string, ESNULLP)]) /\
  strisuppercase_s ceiling_4k mem_abcdef_xyz (Ptr 0) 0 =
    Done (false, [("strisuppercase_s: dmax is 0"%string, ESZEROL)]).
Proof.
  destruct (validation_order ceiling_4k mem_abcdef_xyz (Ptr 0) 0 NULL 3
              (Some (Ptr 5)) (Some 7%N)) as (Hsearch & Hspan & Hpred).
  split; [|split; [|split]].
  - apply (Hsearch DmaxZero). reflexivity.
  - apply (Hsearch DmaxZero). reflexivity.
  - apply (Hspan SrcNull). reflexivity.
  - apply (Hpred DmaxZero). reflexivity.
Defined.

(** C1 does not hold for strisuppercase_s: with [dmax = 2] the buffers "ABC"
    and "ABc" have the same first two cells, and the results differ; on the
    two-cell object "AB" the scan runs off the end of memory.  The declared
    length is decremented in the loop and never tested. *)
Theorem strisuppercase_s_scans_past_dmax :
  firstn 2 mem_ABC = firstn 2 mem_ABc /\
  strisuppercase_s ceiling_4k mem_ABC (Ptr 0) 2 = Done (true, []) /\
  strisuppercase_s ceiling_4k mem_ABc (Ptr 0) 2 = Done (false, []) /\
  strisuppercase_s ceiling_4k mem_AB_unterminated (Ptr 0) 2 = Fault.
Proof. repeat split. Qed.

(** The two-buffer operations test [*dest] before [dmax], and strstr_s and
    strcasestr_s test [src[i]] before [len]: when a buffer has no terminator
    among the cells its declared length covers and nothing stops the scan
    earlier, the cell right behind them is read (its value does not change
    the result). *)
Example cell_at_budget_is_read :
  strstr_s ceiling_4k mem_xyz_then_ab (Ptr 4) 2 (Ptr 0) 3 (Some NULL) = Fault /\
  strcasestr_s ceiling_4k mem_xyz_then_ab (Ptr 4) 2 (Ptr 0) 3 (Some NULL) = Fault /\
  strcspn_s ceiling_4k mem_xyz_then_ab (Ptr 4) 2 (Ptr 0) 3 (Some 0%N) = Fault /\
  strstr_s ceiling_4k mem_abcdef_then_abc (Ptr 0) 6 (Ptr 7) 3 (Some NULL) = Fault /\
  strcasestr_s ceiling_4k mem_abcdef_then_abc (Ptr 0) 6 (Ptr 7) 3 (Some NULL) = Fault.
Proof. repeat split. Qed.

(** C2 does not hold for strcspn_s: with a valid [dest], [dmax = 0] and a
    null [src], the null [src] is reported and ESNULLP returned, not the zero
    [dmax]. *)
Lemma strcspn_s_checks_src_before_dmax :
  strcspn_s ceiling_4k mem_digits_abc (Ptr 0) 0 NULL 3 (Some 7%N) =
    Done ((ESNULLP, Some 0%N), [("strcspn_s: src is null"%string, ESNULLP)]) /\
  strcspn_s ceiling_4k mem_digits_abc (Ptr 0) 0 NULL 3 (Some 7%N) <>
    Done ((ESZEROL, Some 0%N), [("strcspn_s: dmax is 0"%string, ESZEROL)]).
Proof. split; [reflexivity | discriminate]. Qed.

(** C9 does not hold for strcspn_s: a call with a zero [dmax], or with a
    [dmax] above the ceiling, returns ESNULLP when [src] is null as well. *)
Lemma strcspn_s_faulty_dmax_null_src :
  (exists out log,
     strcspn_s ceiling_4k mem_digits_xyz (Ptr 0) 0 NULL 3 (Some 7%N) =
       Done ((ESNULLP, out), log)) /\
  (exists out log,
     strcspn_s ceiling_4k mem_digits_xyz (Ptr 0) 5000 NULL 3 (Some 7%N) =
       Done ((ESNULLP, out), log)) /\
  ESNULLP <> ESZEROL /\ ESNULLP <> ESLEMAX.
Proof.
  split; [|split; [|split]]; try discriminate;
    eexists; eexists; reflexivity.
Qed.

(** The other cases the specification lists. *)

Example not_found_abcdef_xyz :
  strstr_s ceiling_4k mem_abcdef_xyz (Ptr 0) 6 (Ptr 7) 3 (Some (Ptr 5)) =
  Done ((ESNOTFND, Some NULL), []).
Proof. reflexivity. Qed.

Example span_without_excluded_character :
  strcspn_s ceiling_4k mem_digits_xyz (Ptr 0) 8 (Ptr 9) 3 (Some 0%N) =
  Done ((EOK, Some 8%N), []).
Proof. reflexivity. Qed.

Example uppercase_HELLo :
  strisuppercase_s ceiling_4k mem_HELLo (Ptr 0) 5 = Done (false, []).
Proof. reflexivity. Qed.

Example uppercase_empty_string :
  strisuppercase_s ceiling_4k mem_empty_string (Ptr 0) 1 = Done (false, []).
Proof. reflexivity. Qed.

Example uppercase_dmax_above_ceiling :
  strisuppercase_s ceiling_4k mem_HELLO (Ptr 0) 4097 =
  Done (false, [("strisuppercase_s: dmax exceeds max"%string, ESLEMAX)]).
Proof. reflexivity. Qed.


(** * Further properties of the four operations

    What a call that returns has computed, whatever lies in memory: these
    lemmas assume nothing about the cells a scan may run into, only that the
    call did not fault. *)

(** ** The comparisons, when they return *)

Lemma strstr_inner_sound s : forall d len dlen r,
  bounded s len <> [] ->
  strstr_inner s d len dlen = Done r ->
  r = (prefix_by same_char (bounded s len) (bounded d dlen), []).
Proof.
  induction s as [|sc s' IH]; intros d len dlen r Hn Hrun.
  - rewrite bounded_nil in Hn. congruence.
  - rewrite bounded_cons in *.
    destruct (truthy sc) eqn:Hsc; [|simpl in Hn; congruence].
    destruct (nonzero len) eqn:Hlen; [|simpl in Hn; congruence].
    simpl in Hrun |- *. rewrite Hsc in Hrun. simpl in Hrun.
    destruct (nonzero dlen) eqn:Hdlen.
    + destruct d as [|dc d']; [discriminate|].
      rewrite bounded_cons, Hdlen, andb_true_r.
      fold (same_char dc sc) in Hrun.
      destruct (same_char dc sc) eqn:Heq; simpl in Hrun.
      * rewrite (truthy_same_char _ _ Heq Hsc). simpl. rewrite Heq. simpl.
        destruct s' as [|sc' s'']; [discriminate|].
        destruct (is_nul sc' || negb (nonzero (rsize_dec len)))%bool eqn:Hend.
        -- apply (bounded_rest_nil sc' s'') in Hend. rewrite Hend.
           inversion Hrun. reflexivity.
        -- apply IH; [|exact Hrun].
           intro E. apply (bounded_rest_nil sc' s'') in E. congruence.
      * inversion Hrun. destruct (truthy dc); simpl; [rewrite Heq|]; reflexivity.
    + inversion Hrun. destruct d as [|dc d'];
        [rewrite bounded_nil | rewrite bounded_cons, Hdlen, andb_false_r];
        reflexivity.
Qed.

Lemma strcasestr_inner_sound s : forall d len dlen r,
  bounded s len <> [] ->
  strcasestr_inner s d len dlen = Done r ->
  r = (prefix_by same_upper (bounded s len) (bounded d dlen), []).
Proof.
  induction s as [|sc s' IH]; intros d len dlen r Hn Hrun.
  - rewrite bounded_nil in Hn. congruence.
  - rewrite bounded_cons in *.
    destruct (truthy sc) eqn:Hsc; [|simpl in Hn; congruence].
    destruct (nonzero len) eqn:Hlen; [|simpl in Hn; congruence].
    destruct d as [|dc d']; [discriminate|].
    simpl in Hrun |- *. rewrite bounded_cons.
    destruct (truthy dc && nonzero dlen)%bool eqn:Hcond;
      [|inversion Hrun; reflexivity].
    fold (same_upper dc sc) in Hrun. simpl.
    destruct (same_upper dc sc) eqn:Heq; simpl in Hrun |- *;
      [|inversion Hrun; reflexivity].
    destruct s' as [|sc' s'']; [discriminate|].
    destruct (is_nul sc' || negb (nonzero (rsize_dec len)))%bool eqn:Hend.
    + apply (bounded_rest_nil sc' s'') in Hend. rewrite Hend.
      inversion Hrun. reflexivity.
    + apply IH; [|exact Hrun].
      intro E. apply (bounded_rest_nil sc' s'') in E. congruence.
Qed.

(** The comparisons make no report. *)
Lemma strstr_inner_silent s : forall d len dlen b l,
  strstr_inner s d len dlen = Done (b, l) -> l = [].
Proof.
  induction s as [|sc s' IH]; intros d len dlen b l Hrun; simpl in Hrun.
  - discriminate.
  - destruct (truthy sc && nonzero dlen)%bool; [|inversion Hrun; reflexivity].
    destruct d as [|dc d']; [discriminate|].
    destruct (negb (Ascii.eqb dc sc)); [inversion Hrun; reflexivity|].
    destruct s' as [|sc' s'']; [discriminate|].
    destruct (is_nul sc' || negb (nonzero (rsize_dec len)))%bool;
      [inversion Hrun; reflexivity|].
    apply (IH _ _ _ _ _ Hrun).
Qed.

Lemma strcasestr_inner_silent s : forall d len dlen b l,
  strcasestr_inner s d len dlen = Done (b, l) -> l = [].
Proof.
  induction s as [|sc s' IH]; intros d len dlen b l Hrun;
    (destruct d as [|dc d']; [discriminate|]); simpl in Hrun;
    (destruct (truthy dc && nonzero dlen)%bool; [|inversion Hrun; reflexivity]).
  - discriminate.
  - destruct (negb (Ascii.eqb (toupper dc) (toupper sc)));
      [inversion Hrun; reflexivity|].
    destruct s' as [|sc' s'']; [discriminate|].
    destruct (is_nul sc' || negb (nonzero (rsize_dec len)))%bool;
      [inversion Hrun; reflexivity|].
    apply (IH _ _ _ _ _ Hrun).
Qed.

Lemma no_occurrence_in_nil eqc n p :
  n <> [] -> ~ occurs_at eqc n [] p.
Proof.
  intros Hn H. apply (occurs_at_length _ _ _ _ Hn) in H. simpl in H. lia.
Qed.

(** ** The candidate loop, when it returns *)

Section SearchReturns.

Variable eqc : ascii -> ascii -> bool.
Variable inner : list ascii -> list ascii -> rsize_t -> rsize_t -> M bool.
Variable outer :
  list ascii -> rsize_t -> list ascii -> nat -> rsize_t -> M (option nat).

Hypothesis outer_unfold : forall src slen d dest dmax,
  outer src slen d dest dmax =
  match d with
  | [] => Fault
  | c :: d' =>
      if (truthy c && nonzero dmax)%bool then
        matched <- inner src d slen dmax ;;
        if matched : bool then ret (Some dest)
        else outer src slen d' (S dest) (rsize_dec dmax)
      else ret None
  end.

Hypothesis inner_sound : forall s d len dlen r,
  bounded s len <> [] ->
  inner s d len dlen = Done r ->
  r = (prefix_by eqc (bounded s len) (bounded d dlen), []).

Hypothesis inner_silent : forall s d len dlen b l,
  inner s d len dlen = Done (b, l) -> l = [].

(** A returned position is the leftmost occurrence; no position means no
    occurrence. *)
Lemma outer_sound src slen :
  bounded src slen <> [] ->
  forall d dest dmax found l,
    outer src slen d dest dmax = Done (found, l) ->
    l = [] /\
    match found with
    | Some q =>
        exists p, q = dest + p /\
                  leftmost eqc (bounded src slen) (bounded d dmax) p
    | None => forall p, ~ occurs_at eqc (bounded src slen) (bounded d dmax) p
    end.
Proof.
  intros Hn. induction d as [|c d' IH]; intros dest dmax found l Hrun;
    rewrite outer_unfold in Hrun; [discriminate|].
  rewrite bounded_cons.
  destruct (truthy c && nonzero dmax)%bool eqn:Hc.
  - destruct (inner src (c :: d') slen dmax) as [[b lb]|] eqn:Hin;
      [|discriminate].
    apply (inner_sound _ _ _ _ _ Hn) in Hin. inversion Hin; subst b lb.
    rewrite bounded_cons, Hc in Hrun. fold (ret (A:=bool)) in Hrun.
    unfold bind in Hrun.
    destruct (prefix_by eqc (bounded src slen)
                (c :: bounded d' (rsize_dec dmax))) eqn:E0.
    + inversion Hrun; subst. split; [reflexivity|].
      exists 0. rewrite Nat.add_0_r. split; [reflexivity|].
      split; [exact E0|]. intros q Hq. lia.
    + destruct (outer src slen d' (S dest) (rsize_dec dmax))
        as [[found' l']|] eqn:Hrec; [|discriminate].
      inversion Hrun; subst found' l'.
      destruct (IH _ _ _ _ Hrec) as [Hl Hfound]. split; [exact Hl|].
      destruct found as [q|].
      * destruct Hfound as (p & Hq & Hocc & Hleft).
        exists (S p). split; [lia|]. split; [exact Hocc|].
        intros [|k] Hk H.
        -- unfold occurs_at in H. simpl in H. congruence.
        -- apply (Hleft k); [lia | exact H].
      * intros [|p] H.
        -- unfold occurs_at in H. simpl in H. congruence.
        -- apply (Hfound p). exact H.
  - inversion Hrun; subst. split; [reflexivity|].
    intros p. apply no_occurrence_in_nil. exact Hn.
Qed.

(** A returned position lies inside the declared haystack, whatever the
    needle. *)
Lemma outer_range src slen :
  forall d dest dmax q l,
    outer src slen d dest dmax = Done (Some q, l) ->
    l = [] /\ dest <= q < dest + N.to_nat dmax.
Proof.
  induction d as [|c d' IH]; intros dest dmax q l Hrun;
    rewrite outer_unfold in Hrun; [discriminate|].
  destruct (truthy c && nonzero dmax)%bool eqn:Hc; [|discriminate].
  apply andb_true_iff in Hc. destruct Hc as [_ Hmax].
  apply nonzero_true in Hmax. pose proof (rsize_dec_pos _ Hmax) as Hdec.
  destruct (inner src (c :: d') slen dmax) as [[b lb]|] eqn:Hin;
    [|discriminate].
  pose proof (inner_silent _ _ _ _ _ _ Hin) as ->.
  unfold bind in Hrun. destruct b.
  - inversion Hrun; subst. split; [reflexivity | lia].
  - destruct (outer src slen d' (S dest) (rsize_dec dmax))
      as [[found' l']|] eqn:Hrec; [|discriminate].
    inversion Hrun; subst found' l'.
    destruct (IH _ _ _ _ Hrec) as [Hl Hq]. split; [exact Hl | lia].
Qed.

(** Without a position the loop has made no report either. *)
Lemma outer_silent src slen :
  forall d dest dmax found l,
    outer src slen d dest dmax = Done (found, l) -> l = [].
Proof.
  induction d as [|c d' IH]; intros dest dmax found l Hrun;
    rewrite outer_unfold in Hrun; [discriminate|].
  destruct (truthy c && nonzero dmax)%bool;
    [|inversion Hrun; reflexivity].
  destruct (inner src (c :: d') slen dmax) as [[b lb]|] eqn:Hin;
    [|discriminate].
  pose proof (inner_silent _ _ _ _ _ _ Hin) as ->.
  unfold bind in Hrun. destruct b.
  - inversion Hrun; reflexivity.
  - destruct (outer src slen d' (S dest) (rsize_dec dmax))
      as [[found' l']|] eqn:Hrec; [|discriminate].
    inversion Hrun; subst found' l'. apply (IH _ _ _ _ Hrec).
Qed.

End SearchReturns.

Lemma strstr_outer_sound src slen :
  bounded src slen <> [] ->
  forall d dest dmax found l,
    strstr_outer src slen d dest dmax = Done (found, l) ->
    l = [] /\
    match found with
    | Some q =>
        exists p, q = dest + p /\
                  leftmost same_char (bounded src slen) (bounded d dmax) p
    | None =>
        forall p, ~ occurs_at same_char (bounded src slen) (bounded d dmax) p
    end.
Proof.
  exact (outer_sound same_char strstr_inner strstr_outer
           strstr_outer_unfold strstr_inner_sound src slen).
Qed.

Lemma strcasestr_outer_sound src slen :
  bounded src slen <> [] ->
  forall d dest dmax found l,
    strcasestr_outer src slen d dest dmax = Done (found, l) ->
    l = [] /\
    match found with
    | Some q =>
        exists p, q = dest + p /\
                  leftmost same_upper (bounded src slen) (bounded d dmax) p
    | None =>
        forall p, ~ occurs_at same_upper (bounded src slen) (bounded d dmax) p
    end.
Proof.
  exact (outer_sound same_upper strcasestr_inner strcasestr_outer
           strcasestr_outer_unfold strcasestr_inner_sound src slen).
Qed.

(** ** From bounded prefixes back to memory cells *)

Lemma bounded_nat_nth v : forall max i c,
  nth_error (bounded_nat v max) i = Some c -> nth_error v i = Some c.
Proof.
  induction v as [|x v IH]; intros [|max] [|i] c H; simpl in *;
    try discriminate.
  - destruct (is_nul x); simpl in H; [discriminate | exact H].
  - destruct (is_nul x); simpl in H; [discriminate|]. apply (IH _ _ _ H).
Qed.

Lemma view_nth_error m a i : nth_error (view m a) i = nth_error m (a + i).
Proof. unfold view. apply nth_error_skipn. Qed.

Lemma prefix_by_nth eqc n : forall h i x,
  prefix_by eqc n h = true -> nth_error n i = Some x ->
  exists y, nth_error h i = Some y /\ eqc y x = true.
Proof.
  induction n as [|a n IH]; intros [|b h] [|i] x Hp Hx; simpl in *;
    try discriminate; apply andb_true_iff in Hp; destruct Hp as [Hab Hp].
  - inversion Hx; subst. exists b. split; [reflexivity | exact Hab].
  - apply (IH _ _ _ Hp Hx).
Qed.

(** Where the bounded needle occurs in the bounded haystack, the memory
    cells under the haystack position are partners of the needle's cells. *)
Lemma occurrence_cells eqc m dest dmax src slen p i :
  occurs_at eqc (bounded (view m src) slen) (bounded (view m dest) dmax) p ->
  i < length (bounded (view m src) slen) ->
  exists x y,
    nth_error m (src + i) = Some x /\
    nth_error m (dest + p + i) = Some y /\ eqc y x = true.
Proof.
  intros Hocc Hi.
  destruct (nth_error (bounded (view m src) slen) i) as [x|] eqn:Hx.
  2:{ apply nth_error_None in Hx. lia. }
  destruct (prefix_by_nth _ _ _ _ _ Hocc Hx) as (y & Hy & Hxy).
  exists x, y. repeat split.
  - rewrite <- view_nth_error. apply (bounded_nat_nth _ _ _ _ Hx).
  - rewrite nth_error_skipn in Hy. apply bounded_nat_nth in Hy.
    rewrite view_nth_error in Hy. rewrite <- Nat.add_assoc. exact Hy.
  - exact Hxy.
Qed.

(** ** The searches, when they return *)

Section SearchesReturn.

Variable RSIZE_MAX_STR : rsize_t.

(** X1. Whenever strstr_s returns for valid lengths, a non-empty needle and
    two distinct buffers, it has made no report and either (EOK) [*substring]
    is [dest + p] for the leftmost occurrence [p] of the bounded needle in
    the bounded haystack, the match lies within the declared [dmax] cells,
    and every memory cell under it equals the needle cell at the same offset;
    or (ESNOTFND) [*substring] is NULL and the bounded needle occurs nowhere
    in the bounded haystack.  Nothing is assumed about what lies behind the
    buffers. *)
Theorem strstr_s_return_explained m dest dmax src slen old st out l :
  valid_max RSIZE_MAX_STR dmax -> valid_max RSIZE_MAX_STR slen ->
  bounded (view m src) slen <> [] ->
  dest <> src ->
  strstr_s RSIZE_MAX_STR m (Ptr dest) dmax (Ptr src) slen (Some old) =
    Done ((st, out), l) ->
  l = [] /\
  ((exists p,
      st = EOK /\ out = Some (Ptr (dest + p)) /\
      leftmost same_char (bounded (view m src) slen)
        (bounded (view m dest) dmax) p /\
      p + length (bounded (view m src) slen) <= N.to_nat dmax /\
      forall i, i < length (bounded (view m src) slen) ->
        nth_error m (dest + p + i) = nth_error m (src + i)) \/
   (st = ESNOTFND /\ out = Some NULL /\
    forall p, ~ occurs_at same_char (bounded (view m src) slen)
                  (bounded (view m dest) dmax) p)).
Proof.
  intros Hd Hs Hn Hne Hrun.
  destruct (needle_head _ _ _ Hn) as (c & Hc & Hnul).
  rewrite (strstr_s_validated _ _ _ _ _ _ _ _ Hd Hs Hc), Hnul in Hrun.
  simpl in Hrun.
  destruct (Nat.eqb_spec dest src) as [E|_]; [contradiction|].
  destruct (strstr_outer (view m src) slen (view m dest) dest dmax)
    as [[found lf]|] eqn:Hscan; [|discriminate].
  destruct (strstr_outer_sound _ _ Hn _ _ _ _ _ Hscan) as [-> Hfound].
  destruct found as [q|]; inversion Hrun; subst; (split; [reflexivity|]).
  - destruct Hfound as (p & -> & Hocc & Hleft). left. exists p.
    destruct (occurs_at_length _ _ _ _ Hn Hocc) as [Hlen _].
    pose proof (bounded_nat_length_max (view m dest) (N.to_nat dmax)) as Hmax.
    repeat split; try assumption.
    + unfold bounded in *. lia.
    + intros i Hi.
      destruct (occurrence_cells _ _ _ _ _ _ _ _ Hocc Hi)
        as (x & y & Hx & Hy & Hxy).
      apply Ascii.eqb_eq in Hxy. subst. congruence.
  - right. repeat split. exact Hfound.
Qed.

(** X2. The same for strcasestr_s, with the comparison that ignores case:
    the cells under the match and the needle's cells have equal uppercase
    normalizations. *)
Theorem strcasestr_s_return_explained m dest dmax src slen old st out l :
  valid_max RSIZE_MAX_STR dmax -> valid_max RSIZE_MAX_STR slen ->
  bounded (view m src) slen <> [] ->
  dest <> src ->
  strcasestr_s RSIZE_MAX_STR m (Ptr dest) dmax (Ptr src) slen (Some old) =
    Done ((st, out), l) ->
  l = [] /\
  ((exists p,
      st = EOK /\ out = Some (Ptr (dest + p)) /\
      leftmost same_upper (bounded (view m src) slen)
        (bounded (view m dest) dmax) p /\
      p + length (bounded (view m src) slen) <= N.to_nat dmax /\
      forall i, i < length (bounded (view m src) slen) ->
        option_map toupper (nth_error m (dest + p + i)) =
        option_map toupper (nth_error m (src + i))) \/
   (st = ESNOTFND /\ out = Some NULL /\
    forall p, ~ occurs_at same_upper (bounded (view m src) slen)
                  (bounded (view m dest) dmax) p)).
Proof.
  intros Hd Hs Hn Hne Hrun.
  destruct (needle_head _ _ _ Hn) as (c & Hc & Hnul).
  rewrite (strcasestr_s_validated _ _ _ _ _ _ _ _ Hd Hs Hc), Hnul in Hrun.
  simpl in Hrun.
  destruct (Nat.eqb_spec dest src) as [E|_]; [contradiction|].
  destruct (strcasestr_outer (view m src) slen (view m dest) dest dmax)
    as [[found lf]|] eqn:Hscan; [|discriminate].
  destruct (strcasestr_outer_sound _ _ Hn _ _ _ _ _ Hscan) as [-> Hfound].
  destruct found as [q|]; inversion Hrun; subst; (split; [reflexivity|]).
  - destruct Hfound as (p & -> & Hocc & Hleft). left. exists p.
    destruct (occurs_at_length _ _ _ _ Hn Hocc) as [Hlen _].
    pose proof (bounded_nat_length_max (view m dest) (N.to_nat dmax)) as Hmax.
    repeat split; try assumption.
    + unfold bounded in *. lia.
    + intros i Hi.
      destruct (occurrence_cells _ _ _ _ _ _ _ _ Hocc Hi)
        as (x & y & Hx & Hy & Hxy).
      apply Ascii.eqb_eq in Hxy. rewrite Hx, Hy. simpl. congruence.
  - right. repeat split. exact Hfound.
Qed.

End SearchesReturn.

Lemma strstr_outer_range src slen d dest dmax q l :
  strstr_outer src slen d dest dmax = Done (Some q, l) ->
  l = [] /\ dest <= q < dest + N.to_nat dmax.
Proof.
  exact (outer_range strstr_inner strstr_outer strstr_outer_unfold
           strstr_inner_silent src slen d dest dmax q l).
Qed.

Lemma strstr_outer_silent src slen d dest dmax found l :
  strstr_outer src slen d dest dmax = Done (found, l) -> l = [].
Proof.
  exact (outer_silent strstr_inner strstr_outer strstr_outer_unfold
           strstr_inner_silent src slen d dest dmax found l).
Qed.

Lemma strcasestr_outer_range src slen d dest dmax q l :
  strcasestr_outer src slen d dest dmax = Done (Some q, l) ->
  l = [] /\ dest <= q < dest + N.to_nat dmax.
Proof.
  exact (outer_range strcasestr_inner strcasestr_outer
           strcasestr_outer_unfold strcasestr_inner_silent
           src slen d dest dmax q l).
Qed.

Lemma strcasestr_outer_silent src slen d dest dmax found l :
  strcasestr_outer src slen d dest dmax = Done (found, l) -> l = [].
Proof.
  exact (outer_silent strcasestr_inner strcasestr_outer
           strcasestr_outer_unfold strcasestr_inner_silent
           src slen d dest dmax found l).
Qed.

(** ** Status, report and output of every call *)

Section Protocol.

Variable RSIZE_MAX_STR : rsize_t.

(** X3. For every call of strstr_s and strcasestr_s with a non-null output
    pointer that returns, on whatever arguments and memory: with EOK nothing
    was reported and [*substring] points into the declared haystack,
    [dest <= *substring < dest + dmax]; with ESNOTFND nothing was reported
    and [*substring] is NULL; with any other status [*substring] is NULL and
    exactly one violation, of that status, was reported. *)
Theorem search_return_protocol m dest dmax src slen old st out l :
  strstr_s RSIZE_MAX_STR m dest dmax src slen (Some old) = Done ((st, out), l)
  \/ strcasestr_s RSIZE_MAX_STR m dest dmax src slen (Some old) =
     Done ((st, out), l) ->
  match st with
  | EOK =>
      l = [] /\
      exists d q, dest = Ptr d /\ out = Some (Ptr q) /\
                  d <= q < d + N.to_nat dmax
  | ESNOTFND => l = [] /\ out = Some NULL
  | ESNULLP | ESZEROL | ESLEMAX =>
      out = Some NULL /\ exists msg, l = [(msg, st)]
  end.
Proof.
  assert (Hrej : forall msg k (r : (errno_t * option pointer) * list report),
    (invoke_safe_str_constraint_handler msg k ;; ret (k, Some NULL)) = Done r ->
    r = ((k, Some NULL), [(msg, k)])).
  { intros msg k r H. inversion H. reflexivity. }
  intros [Hrun|Hrun].
  - unfold strstr_s, RCNEGATE in Hrun.
    destruct dest as [|d];
      [apply Hrej in Hrun; inversion Hrun; subst; simpl; eauto|].
    destruct (dmax =? 0)%N eqn:Hz;
      [apply Hrej in Hrun; inversion Hrun; subst; simpl; eauto|].
    destruct (RSIZE_MAX_STR <? dmax)%N;
      [apply Hrej in Hrun; inversion Hrun; subst; simpl; eauto|].
    destruct src as [|s];
      [apply Hrej in Hrun; inversion Hrun; subst; simpl; eauto|].
    destruct (slen =? 0)%N;
      [apply Hrej in Hrun; inversion Hrun; subst; simpl; eauto|].
    destruct (RSIZE_MAX_STR <? slen)%N;
      [apply Hrej in Hrun; inversion Hrun; subst; simpl; eauto|].
    apply N.eqb_neq in Hz.
    unfold load in Hrun. destruct (nth_error m s) as [c|]; [|discriminate].
    rewrite bind_ret_l in Hrun.
    destruct (is_nul c || (d =? s)%nat)%bool.
    + inversion Hrun; subst. split; [reflexivity|].
      exists d, d. repeat split; lia.
    + destruct (strstr_outer (view m s) slen (view m d) d dmax)
        as [[[q|] lf]|] eqn:Hscan; [| |discriminate].
      * destruct (strstr_outer_range _ _ _ _ _ _ _ Hscan) as [-> Hq].
        inversion Hrun; subst. split; [reflexivity|].
        exists d, q. repeat split; lia.
      * pose proof (strstr_outer_silent _ _ _ _ _ _ _ Hscan) as ->.
        inversion Hrun; subst. split; reflexivity.
  - unfold strcasestr_s in Hrun.
    destruct dest as [|d];
      [apply Hrej in Hrun; inversion Hrun; subst; simpl; eauto|].
    destruct (dmax =? 0)%N eqn:Hz;
      [apply Hrej in Hrun; inversion Hrun; subst; simpl; eauto|].
    destruct (RSIZE_MAX_STR <? dmax)%N;
      [apply Hrej in Hrun; inversion Hrun; subst; simpl; eauto|].
    destruct src as [|s];
      [apply Hrej in Hrun; inversion Hrun; subst; simpl; eauto|].
    destruct (slen =? 0)%N;
      [apply Hrej in Hrun; inversion Hrun; subst; simpl; eauto|].
    destruct (RSIZE_MAX_STR <? slen)%N;
      [apply Hrej in Hrun; inversion Hrun; subst; simpl; eauto|].
    apply N.eqb_neq in Hz.
    unfold load in Hrun. destruct (nth_error m s) as [c|]; [|discriminate].
    rewrite bind_ret_l in Hrun.
    destruct (is_nul c || (d =? s)%nat)%bool.
    + inversion Hrun; subst. split; [reflexivity|].
      exists d, d. repeat split; lia.
    + destruct (strcasestr_outer (view m s) slen (view m d) d dmax)
        as [[[q|] lf]|] eqn:Hscan; [| |discriminate].
      * destruct (strcasestr_outer_range _ _ _ _ _ _ _ Hscan) as [-> Hq].
        inversion Hrun; subst. split; [reflexivity|].
        exists d, q. repeat split; lia.
      * pose proof (strcasestr_outer_silent _ _ _ _ _ _ _ Hscan) as ->.
        inversion Hrun; subst. split; reflexivity.
Qed.

End Protocol.

(** ** The complement span, when it returns *)

Lemma strcspn_inner_sound c s : forall smax r,
  strcspn_inner c s smax = Done r ->
  r = (existsb (Ascii.eqb c) (bounded s smax), []).
Proof.
  induction s as [|x s IH]; intros smax r Hrun; simpl in Hrun.
  - discriminate.
  - rewrite bounded_cons.
    destruct (truthy x && nonzero smax)%bool;
      [|inversion Hrun; reflexivity].
    simpl. destruct (Ascii.eqb c x); [inversion Hrun; reflexivity|].
    simpl. apply (IH _ _ Hrun).
Qed.

Lemma strcspn_outer_sound src slen d : forall dmax count r,
  (count + N.of_nat (span_excluding (bounded src slen) (bounded d dmax))
   <= SIZE_MAX)%N ->
  strcspn_outer src slen d dmax count = Done r ->
  r = ((count + N.of_nat (span_excluding (bounded src slen) (bounded d dmax)))%N,
       []).
Proof.
  induction d as [|c d IH]; intros dmax count r Hfit Hrun; simpl in Hrun.
  - discriminate.
  - rewrite bounded_cons in *.
    destruct (truthy c && nonzero dmax)%bool.
    2:{ inversion Hrun. simpl. rewrite N.add_0_r. reflexivity. }
    simpl in *.
    destruct (strcspn_inner c src slen) as [[b lb]|] eqn:Hin; [|discriminate].
    apply strcspn_inner_sound in Hin. inversion Hin; subst b lb.
    unfold bind in Hrun.
    destruct (existsb (Ascii.eqb c) (bounded src slen)).
    + inversion Hrun. simpl. rewrite N.add_0_r. reflexivity.
    + rewrite rsize_inc_small in Hrun by lia.
      destruct (strcspn_outer src slen d (rsize_dec dmax) (count + 1))
        as [[n ln]|] eqn:Hrec; [|discriminate].
      apply IH in Hrec; [|lia]. inversion Hrec; subst n ln.
      inversion Hrun. f_equal. lia.
Qed.

Section SpanReturns.

Variable RSIZE_MAX_STR : rsize_t.

Hypothesis RSIZE_MAX_STR_fits : (RSIZE_MAX_STR <= SIZE_MAX)%N.

(** X4. For every call of strcspn_s with a non-null [count] that returns, on
    whatever arguments and memory: the status is never ESNOTFND; with EOK
    nothing was reported, both buffers passed validation and [*count] is the
    number of leading characters of the bounded subject outside the bounded
    exclusion set, at most [dmax]; with any other status [*count] is 0 and
    exactly one violation, of that status, was reported. *)
Theorem strcspn_s_return_protocol m dest dmax src slen old st out l :
  strcspn_s RSIZE_MAX_STR m dest dmax src slen (Some old) = Done ((st, out), l) ->
  match st with
  | EOK =>
      l = [] /\
      exists d s,
        dest = Ptr d /\ src = Ptr s /\
        valid_max RSIZE_MAX_STR dmax /\ valid_max RSIZE_MAX_STR slen /\
        out = Some (N.of_nat (span_excluding (bounded (view m s) slen)
                                (bounded (view m d) dmax))) /\
        (N.of_nat (span_excluding (bounded (view m s) slen)
                     (bounded (view m d) dmax)) <= dmax)%N
  | ESNOTFND => False
  | ESNULLP | ESZEROL | ESLEMAX =>
      out = Some 0%N /\ exists msg, l = [(msg, st)]
  end.
Proof.
  assert (Hrej : forall msg k (r : (errno_t * option rsize_t) * list report),
    (invoke_safe_str_constraint_handler msg k ;; ret (k, Some 0%N)) = Done r ->
    r = ((k, Some 0%N), [(msg, k)])).
  { intros msg k r H. inversion H. reflexivity. }
  intros Hrun. unfold strcspn_s, RCNEGATE in Hrun.
  destruct dest as [|d];
    [apply Hrej in Hrun; inversion Hrun; subst; simpl; eauto|].
  destruct src as [|s];
    [apply Hrej in Hrun; inversion Hrun; subst; simpl; eauto|].
  destruct (dmax =? 0)%N eqn:Hz;
    [apply Hrej in Hrun; inversion Hrun; subst; simpl; eauto|].
  destruct (RSIZE_MAX_STR <? dmax)%N eqn:Hm;
    [apply Hrej in Hrun; inversion Hrun; subst; simpl; eauto|].
  destruct (slen =? 0)%N eqn:Hsz;
    [apply Hrej in Hrun; inversion Hrun; subst; simpl; eauto|].
  destruct (RSIZE_MAX_STR <? slen)%N eqn:Hsm;
    [apply Hrej in Hrun; inversion Hrun; subst; simpl; eauto|].
  apply N.eqb_neq in Hz, Hsz. apply N.ltb_ge in Hm, Hsm.
  pose proof (proj1 (span_excluding_spec (bounded (view m s) slen)
                       (bounded (view m d) dmax))) as H1.
  pose proof (bounded_nat_length_max (view m d) (N.to_nat dmax)) as H2.
  assert (Hle : (N.of_nat (span_excluding (bounded (view m s) slen)
                             (bounded (view m d) dmax)) <= dmax)%N).
  { unfold bounded in *. lia. }
  destruct (strcspn_outer (view m s) slen (view m d) dmax 0)
    as [[n ln]|] eqn:Hscan; [|discriminate].
  apply strcspn_outer_sound in Hscan; [|lia].
  inversion Hscan; subst n ln. inversion Hrun; subst.
  split; [reflexivity|]. exists d, s.
  unfold valid_max. repeat split; try lia; try reflexivity.
Qed.

End SpanReturns.

Lemma view_head (m : memory) (a : nat) c :
  nth_error m a = Some c -> exists r, view m a = c :: r.
Proof.
  intros H. rewrite <- (Nat.add_0_r a), <- view_nth_error in H.
  destruct (view m a) as [|x r]; [discriminate|].
  inversion H; subst. exists r. reflexivity.
Qed.

Lemma span_excluding_nothing h : span_excluding [] h = length h.
Proof. induction h as [|c h IH]; simpl; [|rewrite IH]; reflexivity. Qed.

Section SpanEdges.

Variable RSIZE_MAX_STR : rsize_t.

Hypothesis RSIZE_MAX_STR_fits : (RSIZE_MAX_STR <= SIZE_MAX)%N.

(** X5. The two empty buffers of strcspn_s, after validation.  When the
    subject starts with the terminator the count is 0 and the exclusion
    buffer is not read at all (its pointer may point anywhere).  When the
    exclusion string starts with the terminator, the count is the length of
    the bounded subject: the number of cells before its terminator, at most
    [dmax]. *)
Theorem strcspn_s_empty_buffers m dest dmax src slen old :
  valid_max RSIZE_MAX_STR dmax -> valid_max RSIZE_MAX_STR slen ->
  (nth_error m dest = Some zero ->
   strcspn_s RSIZE_MAX_STR m (Ptr dest) dmax (Ptr src) slen (Some old) =
     Done ((EOK, Some 0%N), [])) /\
  (nth_error m src = Some zero -> readable (view m dest) dmax ->
   strcspn_s RSIZE_MAX_STR m (Ptr dest) dmax (Ptr src) slen (Some old) =
     Done ((EOK, Some (N.of_nat (length (bounded (view m dest) dmax)))), [])).
Proof.
  intros Hd Hs. split.
  - intros H0. destruct (view_head _ _ _ H0) as [r Hv].
    unfold strcspn_s.
    destruct (valid_max_tests _ _ Hd) as [-> ->].
    destruct (valid_max_tests _ _ Hs) as [-> ->].
    rewrite Hv. reflexivity.
  - intros H0 Hr. destruct (view_head _ _ _ H0) as [r Hv].
    assert (He : bounded (view m src) slen = []).
    { rewrite Hv, bounded_cons. reflexivity. }
    rewrite (strcspn_s_span RSIZE_MAX_STR RSIZE_MAX_STR_fits
               m dest dmax src slen old Hd Hs).
    + rewrite He, span_excluding_nothing. reflexivity.
    + rewrite He, span_excluding_nothing. exact Hr.
    + intros _. unfold readable. rewrite He, Hv. simpl. lia.
Qed.

End SpanEdges.

(** ** The all-uppercase predicate, when it returns *)

Lemma strisuppercase_loop_sound v : forall dmax b l,
  strisuppercase_loop v dmax = Done (b, l) ->
  l = [] /\
  exists up c rest,
    v = up ++ c :: rest /\ forallb in_A_Z up = true /\ in_A_Z c = false /\
    b = is_nul c.
Proof.
  induction v as [|x v IH]; intros dmax b l Hrun; simpl in Hrun.
  - discriminate.
  - unfold truthy in Hrun. destruct (is_nul x) eqn:Hx; simpl in Hrun.
    + inversion Hrun; subst. split; [reflexivity|].
      exists [], x, v. repeat split.
      * unfold is_nul in Hx. apply Ascii.eqb_eq in Hx. subst. reflexivity.
      * symmetry. exact Hx.
    + destruct (Ascii.ltb x "A" || Ascii.ltb "Z" x)%bool eqn:Hout.
      * inversion Hrun; subst. split; [reflexivity|].
        exists [], x, v. repeat split.
        -- unfold in_A_Z. rewrite Hout. reflexivity.
        -- symmetry. exact Hx.
      * destruct (IH _ _ _ Hrun) as (Hl & up & c & rest & Hv & Hup & Hc & Hb).
        split; [exact Hl|]. exists (x :: up), c, rest. repeat split.
        -- simpl. rewrite Hv. reflexivity.
        -- simpl. unfold in_A_Z at 1. rewrite Hout, Hup. reflexivity.
        -- exact Hc.
        -- exact Hb.
Qed.

Section UppercaseReturns.

Variable RSIZE_MAX_STR : rsize_t.

(** X6. Every return of strisuppercase_s is explained by what lies in memory,
    for all arguments.  Either one violation was reported, the result is
    false and [dest] is null or [dmax] is not a valid length; or nothing was
    reported, [dmax] is valid, and the cells from [dest] on are a run [up] of
    letters 'A'..'Z' followed by a cell [c] outside that range, the result
    being true exactly when [up] is not empty and [c] is the terminator.  In
    particular true is returned only for a non-empty string of uppercase
    letters. *)
Theorem strisuppercase_s_return_explained m dest dmax b l :
  strisuppercase_s RSIZE_MAX_STR m dest dmax = Done (b, l) ->
  (l = [] /\
   exists d up c rest,
     dest = Ptr d /\ valid_max RSIZE_MAX_STR dmax /\
     view m d = up ++ c :: rest /\
     forallb in_A_Z up = true /\ in_A_Z c = false /\
     b = match up with [] => false | _ :: _ => is_nul c end) \/
  (b = false /\
   (dest = NULL \/ ~ valid_max RSIZE_MAX_STR dmax) /\
   exists msg k, l = [(msg, k)]).
Proof.
  intros Hrun. unfold strisuppercase_s in Hrun.
  destruct dest as [|d].
  { right. inversion Hrun; subst. repeat split; eauto. }
  destruct (dmax =? 0)%N eqn:Hz.
  { right. inversion Hrun; subst. apply N.eqb_eq in Hz.
    repeat split; eauto. right. unfold valid_max. lia. }
  destruct (RSIZE_MAX_STR <? dmax)%N eqn:Hm.
  { right. inversion Hrun; subst. apply N.ltb_lt in Hm.
    repeat split; eauto. right. unfold valid_max. lia. }
  apply N.eqb_neq in Hz. apply N.ltb_ge in Hm.
  assert (Hvalid : valid_max RSIZE_MAX_STR dmax) by (unfold valid_max; lia).
  left. unfold load in Hrun.
  destruct (nth_error m d) as [c0|] eqn:Hc0; [|discriminate].
  rewrite bind_ret_l in Hrun.
  destruct (view_head _ _ _ Hc0) as [r Hv].
  destruct (is_nul c0) eqn:Hnul.
  - inversion Hrun; subst. split; [reflexivity|].
    exists d, [], c0, r.
    split; [reflexivity|]. split; [exact Hvalid|]. split; [exact Hv|].
    split; [reflexivity|]. split; [|reflexivity].
    unfold is_nul in Hnul. apply Ascii.eqb_eq in Hnul. subst. reflexivity.
  - destruct (strisuppercase_loop_sound _ _ _ _ Hrun)
      as (Hl & up & c & rest & Hv' & Hup & Hc & Hb).
    split; [exact Hl|]. exists d, up, c, rest.
    split; [reflexivity|]. split; [exact Hvalid|]. split; [exact Hv'|].
    split; [exact Hup|]. split; [exact Hc|].
    destruct up as [|u up]; [|exact Hb].
    rewrite Hv in Hv'. simpl in Hv'. inversion Hv'; subst. exact Hnul.
Qed.

End UppercaseReturns.

(** ** strstr_s against strcasestr_s *)

Lemma same_char_same_upper a b : same_char a b = true -> same_upper a b = true.
Proof.
  unfold same_char, same_upper. intros H. apply Ascii.eqb_eq in H. subst.
  apply Ascii.eqb_refl.
Qed.

Lemma prefix_by_weaken (e1 e2 : ascii -> ascii -> bool) n :
  (forall a b, e1 a b = true -> e2 a b = true) ->
  forall h, prefix_by e1 n h = true -> prefix_by e2 n h = true.
Proof.
  intros Hw. induction n as [|x n IH]; intros [|y h] H; simpl in *;
    try reflexivity; try discriminate.
  apply andb_true_iff in H. destruct H as [H1 H2].
  rewrite (Hw _ _ H1), (IH _ H2). reflexivity.
Qed.

(** An occurrence has a leftmost occurrence at or before it. *)
Lemma leftmost_before eqc n h p :
  n <> [] -> occurs_at eqc n h p ->
  exists p', p' <= p /\ leftmost eqc n h p'.
Proof.
  intros Hn Hocc.
  destruct (occurrence_decided eqc n h Hn) as [[p' Hp']|Hno].
  - exists p'. split; [|exact Hp'].
    destruct (Nat.le_gt_cases p' p) as [Hle|Hgt]; [exact Hle|].
    exfalso. apply (proj2 Hp' p Hgt). exact Hocc.
  - exfalso. apply (Hno p). exact Hocc.
Qed.

(** A comparison of strstr_s that succeeded has read the needle cell at which
    it stopped. *)
Lemma strstr_inner_true_readable s : forall d len dlen l,
  strstr_inner s d len dlen = Done (true, l) -> readable s len.
Proof.
  induction s as [|sc s' IH]; intros d len dlen l Hrun; simpl in Hrun.
  - discriminate.
  - destruct (truthy sc && nonzero dlen)%bool eqn:Hc; [|discriminate].
    destruct d as [|dc d']; [discriminate|].
    destruct (negb (Ascii.eqb dc sc)); [discriminate|].
    destruct s' as [|sc' s'']; [discriminate|].
    unfold readable. rewrite bounded_cons.
    destruct (truthy sc && nonzero len)%bool; [|simpl; lia].
    destruct (is_nul sc' || negb (nonzero (rsize_dec len)))%bool eqn:Hend.
    + apply (bounded_rest_nil sc' s'') in Hend. rewrite Hend. simpl. lia.
    + apply IH in Hrun. unfold readable in Hrun. simpl in *. lia.
Qed.

Lemma strstr_outer_found_readable src slen d : forall dest dmax q l,
  strstr_outer src slen d dest dmax = Done (Some q, l) -> readable src slen.
Proof.
  induction d as [|c d' IH]; intros dest dmax q l Hrun; simpl in Hrun.
  - discriminate.
  - destruct (truthy c && nonzero dmax)%bool; [|discriminate].
    destruct (strstr_inner src (c :: d') slen dmax) as [[b lb]|] eqn:Hin;
      [|discriminate].
    destruct b.
    + apply (strstr_inner_true_readable _ _ _ _ _ Hin).
    + unfold bind in Hrun.
      destruct (strstr_outer src slen d' (S dest) (rsize_dec dmax))
        as [[found' l']|] eqn:Hrec; [|discriminate].
      inversion Hrun; subst found'. apply (IH _ _ _ _ Hrec).
Qed.

Section ExactAgainstFolded.

Variable RSIZE_MAX_STR : rsize_t.

(** X7. strcasestr_s finds whatever strstr_s finds: when strstr_s returns EOK
    with [*substring = q], strcasestr_s on the same arguments and memory
    returns EOK as well, without a report, at a position [q'] of the haystack
    that is [q] or lies before it. *)
Theorem strcasestr_s_finds_what_strstr_s_finds m dest dmax src slen old q l :
  valid_max RSIZE_MAX_STR dmax -> valid_max RSIZE_MAX_STR slen ->
  strstr_s RSIZE_MAX_STR m (Ptr dest) dmax (Ptr src) slen (Some old) =
    Done ((EOK, Some (Ptr q)), l) ->
  exists q',
    dest <= q' <= q /\
    strcasestr_s RSIZE_MAX_STR m (Ptr dest) dmax (Ptr src) slen (Some old) =
      Done ((EOK, Some (Ptr q')), []).
Proof.
  intros Hd Hs Hrun.
  destruct (nth_error m src) as [c|] eqn:Hc.
  2:{ unfold strstr_s in Hrun.
      destruct (valid_max_tests _ _ Hd) as [Hd1 Hd2].
      destruct (valid_max_tests _ _ Hs) as [Hs1 Hs2].
      rewrite Hd1, Hd2, Hs1, Hs2 in Hrun. unfold load in Hrun.
      rewrite Hc in Hrun. discriminate. }
  rewrite (strstr_s_validated _ _ _ _ _ _ _ _ Hd Hs Hc) in Hrun.
  rewrite (strcasestr_s_validated _ _ _ _ _ _ _ _ Hd Hs Hc).
  destruct (is_nul c || (dest =? src)%nat)%bool eqn:Hshort.
  - inversion Hrun; subst. exists q. split; [lia | reflexivity].
  - apply orb_false_iff in Hshort. destruct Hshort as [Hnul Hne].
    destruct (view_head _ _ _ Hc) as [r Hv].
    assert (Hn : bounded (view m src) slen <> []).
    { rewrite Hv, bounded_cons. unfold truthy. rewrite Hnul.
      destruct (valid_max_tests _ _ Hs) as [Hs1 _].
      unfold nonzero. rewrite Hs1. discriminate. }
    destruct (strstr_outer (view m src) slen (view m dest) dest dmax)
      as [[[q0|] lf]|] eqn:Hscan; [| |discriminate].
    2:{ apply strstr_outer_silent in Hscan as ->. discriminate. }
    pose proof (strstr_outer_found_readable _ _ _ _ _ _ _ Hscan) as Hr.
    destruct (strstr_outer_sound _ _ Hn _ _ _ _ _ Hscan)
      as [-> (p & -> & Hocc & _)].
    inversion Hrun; subst q.
    assert (Hfold : occurs_at same_upper (bounded (view m src) slen)
                      (bounded (view m dest) dmax) p).
    { apply (prefix_by_weaken same_char same_upper _ same_char_same_upper).
      exact Hocc. }
    destruct (leftmost_before _ _ _ _ Hn Hfold) as (p' & Hle & Hp').
    exists (dest + p'). split; [lia|].
    rewrite (strcasestr_outer_found _ _ Hn Hr _ _ _ _ Hp'), bind_ret_l.
    reflexivity.
Qed.

End ExactAgainstFolded.

(** ** Letter case and strcasestr_s *)

Lemma prefix_by_same_upper_map n : forall h,
  prefix_by same_upper n h =
  prefix_by same_char (map toupper n) (map toupper h).
Proof.
  induction n as [|x n IH]; intros [|y h]; simpl; try reflexivity.
  rewrite IH. reflexivity.
Qed.

Lemma occurs_at_case_transfer n h n' h' p :
  map toupper n' = map toupper n -> map toupper h' = map toupper h ->
  occurs_at same_upper n h p -> occurs_at same_upper n' h' p.
Proof.
  unfold occurs_at. intros Hn Hh.
  rewrite !prefix_by_same_upper_map, <- !skipn_map, Hn, Hh. trivial.
Qed.

Lemma leftmost_case_transfer n h n' h' p :
  map toupper n' = map toupper n -> map toupper h' = map toupper h ->
  leftmost same_upper n h p -> leftmost same_upper n' h' p.
Proof.
  intros Hn Hh [Hocc Hleft]. split.
  - apply (occurs_at_case_transfer n h); assumption.
  - intros q Hq H. apply (Hleft q Hq).
    apply (occurs_at_case_transfer n' h'); [symmetry; exact Hn
                                           | symmetry; exact Hh | exact H].
Qed.

Section LetterCase.

Variable RSIZE_MAX_STR : rsize_t.

(** X8. strcasestr_s sees its buffers up to letter case only: two memories in
    which the bounded needles have the same uppercase normalization, and the
    bounded haystacks too, give the same status, position and reports (the
    cells at which the scans stop being inside both memories). *)
Theorem strcasestr_s_case_invariant m m' dest dmax src slen old :
  valid_max RSIZE_MAX_STR dmax -> valid_max RSIZE_MAX_STR slen ->
  map toupper (bounded (view m' src) slen) =
    map toupper (bounded (view m src) slen) ->
  map toupper (bounded (view m' dest) dmax) =
    map toupper (bounded (view m dest) dmax) ->
  readable (view m src) slen -> readable (view m' src) slen ->
  readable (view m dest) dmax -> readable (view m' dest) dmax ->
  strcasestr_s RSIZE_MAX_STR m' (Ptr dest) dmax (Ptr src) slen (Some old) =
  strcasestr_s RSIZE_MAX_STR m (Ptr dest) dmax (Ptr src) slen (Some old).
Proof.
  intros Hd Hs Hn' Hh' Hr Hr' Hrd Hrd'.
  assert (Hcase : bounded (view m src) slen = [] \/
                  bounded (view m src) slen <> []).
  { destruct (bounded (view m src) slen);
      [left; reflexivity | right; discriminate]. }
  pose proof (proj1 (valid_max_tests _ _ Hs)) as Hs0.
  destruct Hcase as [Hb|Hne].
  - assert (Hb' : bounded (view m' src) slen = []).
    { rewrite Hb in Hn'. apply map_eq_nil in Hn'. exact Hn'. }
    rewrite (strcasestr_s_validated _ _ _ _ _ _ _ _ Hd Hs
               (empty_needle_head _ _ _ Hs0 Hb Hr)).
    rewrite (strcasestr_s_validated _ _ _ _ _ _ _ _ Hd Hs
               (empty_needle_head _ _ _ Hs0 Hb' Hr')).
    reflexivity.
  - assert (Hne' : bounded (view m' src) slen <> []).
    { intro E. rewrite E in Hn'. symmetry in Hn'.
      apply map_eq_nil in Hn'. contradiction. }
    destruct (Nat.eq_dec dest src) as [->|Hneq].
    + destruct (needle_head _ _ _ Hne) as (c & Hc & _).
      destruct (needle_head _ _ _ Hne') as (c' & Hc' & _).
      rewrite (strcasestr_s_validated _ _ _ _ _ _ _ _ Hd Hs Hc).
      rewrite (strcasestr_s_validated _ _ _ _ _ _ _ _ Hd Hs Hc').
      rewrite Nat.eqb_refl, !orb_true_r. reflexivity.
    + destruct (occurrence_decided same_upper (bounded (view m src) slen)
                  (bounded (view m dest) dmax) Hne) as [[p Hp]|Hno].
      * rewrite (strcasestr_s_match _ m) with (p := p) by assumption.
        apply strcasestr_s_match; try assumption.
        apply (leftmost_case_transfer _ _ _ _ _ Hn' Hh' Hp).
      * rewrite (strcasestr_s_no_match _ m) by assumption.
        apply strcasestr_s_no_match; try assumption.
        intros p H. apply (Hno p).
        apply (occurs_at_case_transfer _ _ _ _ _
                 (eq_sym Hn') (eq_sym Hh') H).
Qed.

End LetterCase.

(** ** Declared lengths that cover terminated strings *)

Lemma bounded_nat_terminated h rest : forall max,
  forallb truthy h = true -> length h <= max ->
  bounded_nat (h ++ zero :: rest) max = h.
Proof.
  induction h as [|c h IH]; intros [|max] Hh Hlen; simpl in *;
    try reflexivity; try lia.
  apply andb_true_iff in Hh. destruct Hh as [Hc Hh].
  unfold truthy in Hc. apply negb_true_iff in Hc. rewrite Hc.
  f_equal. apply IH; [exact Hh | lia].
Qed.

Lemma bounded_terminated h rest max :
  forallb truthy h = true -> length h <= N.to_nat max ->
  bounded (h ++ zero :: rest) max = h.
Proof. apply bounded_nat_terminated. Qed.

Section CoveredStrings.

Variable RSIZE_MAX_STR : rsize_t.

Hypothesis RSIZE_MAX_STR_fits : (RSIZE_MAX_STR <= SIZE_MAX)%N.

(** X9. For terminated strings the declared lengths matter only as far as
    they cut a string short: when [dest] holds the string [h] and [src] the
    string [n], each followed by its terminator, any two pairs of valid
    lengths that cover [h] and [n] give the same result, for strstr_s, for
    strcasestr_s and for strcspn_s. *)
Theorem covered_strings_ignore_lengths
    m dest src h resth n restn dmax dmax' slen slen' old oldc :
  view m dest = h ++ zero :: resth -> forallb truthy h = true ->
  view m src = n ++ zero :: restn -> forallb truthy n = true ->
  valid_max RSIZE_MAX_STR dmax -> valid_max RSIZE_MAX_STR dmax' ->
  valid_max RSIZE_MAX_STR slen -> valid_max RSIZE_MAX_STR slen' ->
  length h <= N.to_nat dmax -> length h <= N.to_nat dmax' ->
  length n <= N.to_nat slen -> length n <= N.to_nat slen' ->
  strstr_s RSIZE_MAX_STR m (Ptr dest) dmax (Ptr src) slen (Some old) =
    strstr_s RSIZE_MAX_STR m (Ptr dest) dmax' (Ptr src) slen' (Some old) /\
  strcasestr_s RSIZE_MAX_STR m (Ptr dest) dmax (Ptr src) slen (Some old) =
    strcasestr_s RSIZE_MAX_STR m (Ptr dest) dmax' (Ptr src) slen' (Some old) /\
  strcspn_s RSIZE_MAX_STR m (Ptr dest) dmax (Ptr src) slen (Some oldc) =
    strcspn_s RSIZE_MAX_STR m (Ptr dest) dmax' (Ptr src) slen' (Some oldc).
Proof.
  intros Hvh Hh Hvn Hn Hd Hd' Hs Hs' Lh Lh' Ln Ln'.
  assert (Bh : bounded (view m dest) dmax = h)
    by (rewrite Hvh; apply bounded_terminated; assumption).
  assert (Bh' : bounded (view m dest) dmax' = h)
    by (rewrite Hvh; apply bounded_terminated; assumption).
  assert (Bn : bounded (view m src) slen = n)
    by (rewrite Hvn; apply bounded_terminated; assumption).
  assert (Bn' : bounded (view m src) slen' = n)
    by (rewrite Hvn; apply bounded_terminated; assumption).
  assert (Rh : readable (view m dest) dmax).
  { unfold readable. rewrite Bh, Hvh, length_app. simpl. lia. }
  assert (Rh' : readable (view m dest) dmax').
  { unfold readable. rewrite Bh', Hvh, length_app. simpl. lia. }
  assert (Rn : readable (view m src) slen).
  { unfold readable. rewrite Bn, Hvn, length_app. simpl. lia. }
  assert (Rn' : readable (view m src) slen').
  { unfold readable. rewrite Bn', Hvn, length_app. simpl. lia. }
  assert (Hsearch :
    strstr_s RSIZE_MAX_STR m (Ptr dest) dmax (Ptr src) slen (Some old) =
      strstr_s RSIZE_MAX_STR m (Ptr dest) dmax' (Ptr src) slen' (Some old) /\
    strcasestr_s RSIZE_MAX_STR m (Ptr dest) dmax (Ptr src) slen (Some old) =
      strcasestr_s RSIZE_MAX_STR m (Ptr dest) dmax' (Ptr src) slen'
        (Some old)).
  { destruct n as [|x n'].
    - (* the empty needle: both calls stop at the first test *)
      simpl in Hvn. destruct (view_cons _ _ _ _ Hvn) as [Hc _].
      rewrite !(strstr_s_validated _ _ _ _ _ _ _ _ Hd Hs Hc).
      rewrite !(strstr_s_validated _ _ _ _ _ _ _ _ Hd' Hs' Hc).
      rewrite !(strcasestr_s_validated _ _ _ _ _ _ _ _ Hd Hs Hc).
      rewrite !(strcasestr_s_validated _ _ _ _ _ _ _ _ Hd' Hs' Hc).
      split; reflexivity.
    - assert (Ne : bounded (view m src) slen <> [])
        by (rewrite Bn; discriminate).
      assert (Ne' : bounded (view m src) slen' <> [])
        by (rewrite Bn'; discriminate).
      destruct (Nat.eq_dec dest src) as [E|Hneq].
      + (* one buffer: both calls return it *)
        destruct (needle_head _ _ _ Ne) as (c & Hc & _).
        rewrite !(strstr_s_validated _ _ _ _ _ _ _ _ Hd Hs Hc).
        rewrite !(strstr_s_validated _ _ _ _ _ _ _ _ Hd' Hs' Hc).
        rewrite !(strcasestr_s_validated _ _ _ _ _ _ _ _ Hd Hs Hc).
        rewrite !(strcasestr_s_validated _ _ _ _ _ _ _ _ Hd' Hs' Hc).
        subst dest. rewrite Nat.eqb_refl, !orb_true_r. split; reflexivity.
      + split.
        * destruct (occurrence_decided same_char (x :: n') h)
            as [[p Hp]|Hno]; [discriminate| |].
          -- rewrite (strstr_s_leftmost_found _ m dest dmax src slen old p),
               (strstr_s_leftmost_found _ m dest dmax' src slen' old p);
               try assumption; try reflexivity.
             ++ rewrite Bn', Bh'. exact Hp.
             ++ rewrite Bn, Bh. exact Hp.
          -- rewrite (strstr_s_no_match _ m dest dmax src slen old),
               (strstr_s_no_match _ m dest dmax' src slen' old);
               try assumption; try reflexivity.
             ++ rewrite Bn', Bh'. exact Hno.
             ++ rewrite Bn, Bh. exact Hno.
        * destruct (occurrence_decided same_upper (x :: n') h)
            as [[p Hp]|Hno]; [discriminate| |].
          -- rewrite (strcasestr_s_match _ m dest dmax src slen old p),
               (strcasestr_s_match _ m dest dmax' src slen' old p);
               try assumption; try reflexivity.
             ++ rewrite Bn', Bh'. exact Hp.
             ++ rewrite Bn, Bh. exact Hp.
          -- rewrite (strcasestr_s_no_match _ m dest dmax src slen old),
               (strcasestr_s_no_match _ m dest dmax' src slen' old);
               try assumption; try reflexivity.
             ++ rewrite Bn', Bh'. exact Hno.
             ++ rewrite Bn, Bh. exact Hno. }
  destruct Hsearch as [H1 H2]. split; [exact H1|]. split; [exact H2|].
  pose proof (proj1 (span_excluding_spec n h)) as Hle.
  rewrite (strcspn_s_span _ RSIZE_MAX_STR_fits m dest dmax src slen oldc),
    (strcspn_s_span _ RSIZE_MAX_STR_fits m dest dmax' src slen' oldc);
    try assumption.
  - rewrite Bn, Bh, Bn', Bh'. reflexivity.
  - rewrite Bn', Bh'. unfold readable in Rh'. rewrite Bh' in Rh'. lia.
  - intros _. exact Rn'.
  - rewrite Bn, Bh. unfold readable in Rh. rewrite Bh in Rh. lia.
  - intros _. exact Rn.
Qed.

End CoveredStrings.

(** ** Text without lowercase letters *)

Lemma map_toupper_fixed l :
  Forall (fun c => toupper c = c) l -> map toupper l = l.
Proof.
  induction 1 as [|c l Hc _ IH]; simpl; [|rewrite Hc, IH]; reflexivity.
Qed.

Lemma occurs_at_fixed_case n h p :
  Forall (fun c => toupper c = c) n -> Forall (fun c => toupper c = c) h ->
  (occurs_at same_upper n h p <-> occurs_at same_char n h p).
Proof.
  intros Hn Hh. unfold occurs_at.
  rewrite prefix_by_same_upper_map, <- skipn_map.
  rewrite (map_toupper_fixed _ Hn), (map_toupper_fixed _ Hh). reflexivity.
Qed.

Section FixedCase.

Variable RSIZE_MAX_STR : rsize_t.

(** X10. On text without lowercase letters the two searches agree: when no
    cell of the bounded needle and of the bounded haystack is changed by
    [toupper], strcasestr_s returns exactly what strstr_s returns. *)
Theorem strcasestr_s_is_strstr_s_without_lowercase m dest dmax src slen old :
  valid_max RSIZE_MAX_STR dmax -> valid_max RSIZE_MAX_STR slen ->
  readable (view m src) slen -> readable (view m dest) dmax ->
  Forall (fun c => toupper c = c) (bounded (view m src) slen) ->
  Forall (fun c => toupper c = c) (bounded (view m dest) dmax) ->
  strcasestr_s RSIZE_MAX_STR m (Ptr dest) dmax (Ptr src) slen (Some old) =
  strstr_s RSIZE_MAX_STR m (Ptr dest) dmax (Ptr src) slen (Some old).
Proof.
  intros Hd Hs Hr Hrd Fn Fh.
  pose proof (proj1 (valid_max_tests _ _ Hs)) as Hs0.
  assert (Hcase : bounded (view m src) slen = [] \/
                  bounded (view m src) slen <> []).
  { destruct (bounded (view m src) slen);
      [left; reflexivity | right; discriminate]. }
  destruct Hcase as [Hb|Hne].
  - pose proof (empty_needle_head _ _ _ Hs0 Hb Hr) as Hc.
    rewrite (strcasestr_s_validated _ _ _ _ _ _ _ _ Hd Hs Hc).
    rewrite (strstr_s_validated _ _ _ _ _ _ _ _ Hd Hs Hc).
    reflexivity.
  - destruct (Nat.eq_dec dest src) as [->|Hneq].
    + destruct (needle_head _ _ _ Hne) as (c & Hc & _).
      rewrite (strcasestr_s_validated _ _ _ _ _ _ _ _ Hd Hs Hc).
      rewrite (strstr_s_validated _ _ _ _ _ _ _ _ Hd Hs Hc).
      rewrite Nat.eqb_refl, !orb_true_r. reflexivity.
    + destruct (occurrence_decided same_char (bounded (view m src) slen)
                  (bounded (view m dest) dmax) Hne)
        as [[p [Hocc Hleft]]|Hno].
      * rewrite (strstr_s_leftmost_found _ m dest dmax src slen old p);
          try assumption; [|split; assumption].
        apply strcasestr_s_match; try assumption. split.
        -- apply (occurs_at_fixed_case _ _ _ Fn Fh). exact Hocc.
        -- intros q Hq H. apply (Hleft q Hq).
           apply (occurs_at_fixed_case _ _ _ Fn Fh). exact H.
      * rewrite (strstr_s_no_match _ m dest dmax src slen old);
          try assumption.
        apply strcasestr_s_no_match; try assumption.
        intros p H. apply (Hno p).
        apply (occurs_at_fixed_case _ _ _ Fn Fh). exact H.
Qed.

End FixedCase.

(** * Worked examples for the further properties *)

(** "abd" in "abcabd": the cells at offsets 3, 4, 5 are the needle's. *)
Lemma strstr_s_return_explained_witness :
  @nil report = [] /\
  ((exists p,
      EOK = EOK /\ Some (Ptr 3) = Some (Ptr (0 + p)) /\
      leftmost same_char (bounded (view mem_abcabd_abd 7) 3)
        (bounded (view mem_abcabd_abd 0) 6) p /\
      p + length (bounded (view mem_abcabd_abd 7) 3) <= N.to_nat 6 /\
      forall i, i < length (bounded (view mem_abcabd_abd 7) 3) ->
        nth_error mem_abcabd_abd (0 + p + i) =
        nth_error mem_abcabd_abd (7 + i)) \/
   (EOK = ESNOTFND /\ Some (Ptr 3) = Some NULL /\
    forall p, ~ occurs_at same_char (bounded (view mem_abcabd_abd 7) 3)
                  (bounded (view mem_abcabd_abd 0) 6) p)).
Proof.
  apply (strstr_s_return_explained ceiling_4k mem_abcabd_abd 0 6 7 3 NULL
           EOK (Some (Ptr 3)) []).
  - valid_4k.
  - valid_4k.
  - vm_compute. discriminate.
  - discriminate.
  - reflexivity.
Defined.

(** "WORLD" in "Hello World": the cells at offsets 6..10 are the needle's up
    to case. *)
Lemma strcasestr_s_return_explained_witness :
  @nil report = [] /\
  ((exists p,
      EOK = EOK /\ Some (Ptr 6) = Some (Ptr (0 + p)) /\
      leftmost same_upper (bounded (view mem_hello_world 12) 5)
        (bounded (view mem_hello_world 0) 11) p /\
      p + length (bounded (view mem_hello_world 12) 5) <= N.to_nat 11 /\
      forall i, i < length (bounded (view mem_hello_world 12) 5) ->
        option_map toupper (nth_error mem_hello_world (0 + p + i)) =
        option_map toupper (nth_error mem_hello_world (12 + i))) \/
   (EOK = ESNOTFND /\ Some (Ptr 6) = Some NULL /\
    forall p, ~ occurs_at same_upper (bounded (view mem_hello_world 12) 5)
                  (bounded (view mem_hello_world 0) 11) p)).
Proof.
  apply (strcasestr_s_return_explained ceiling_4k mem_hello_world 0 11 12 5
           NULL EOK (Some (Ptr 6)) []).
  - valid_4k.
  - valid_4k.
  - vm_compute. discriminate.
  - discriminate.
  - reflexivity.
Defined.

(** The returned pointer of the search for "abd" lies in the haystack. *)
Lemma search_return_protocol_witness :
  @nil report = [] /\
  exists d q, Ptr 0 = Ptr d /\ Some (Ptr 3) = Some (Ptr q) /\
              d <= q < d + N.to_nat 6.
Proof.
  apply (search_return_protocol ceiling_4k mem_abcabd_abd (Ptr 0) 6 (Ptr 7) 3
           NULL EOK (Some (Ptr 3)) []).
  left. reflexivity.
Defined.

(** "12345abc" against "abc": EOK and the count 5, at most [dmax = 8]. *)
Lemma strcspn_s_return_protocol_witness :
  @nil report = [] /\
  exists d s,
    Ptr 0 = Ptr d /\ Ptr 9 = Ptr s /\
    valid_max ceiling_4k 8 /\ valid_max ceiling_4k 3 /\
    Some 5%N =
      Some (N.of_nat (span_excluding (bounded (view mem_digits_abc s) 3)
                        (bounded (view mem_digits_abc d) 8))) /\
    (N.of_nat (span_excluding (bounded (view mem_digits_abc s) 3)
                 (bounded (view mem_digits_abc d) 8)) <= 8)%N.
Proof.
  refine (strcspn_s_return_protocol ceiling_4k _ mem_digits_abc (Ptr 0) 8
            (Ptr 9) 3 77%N EOK (Some 5%N) [] _).
  - vm_compute. discriminate.
  - reflexivity.
Defined.

(** The empty subject at address 4 with an exclusion pointer outside memory,
    and "abc" against the empty exclusion string. *)
Lemma strcspn_s_empty_buffers_witness :
  strcspn_s ceiling_4k mem_abc_empty (Ptr 4) 3 (Ptr 999) 1 (Some 7%N) =
    Done ((EOK, Some 0%N), []) /\
  strcspn_s ceiling_4k mem_abc_empty (Ptr 0) 3 (Ptr 4) 1 (Some 7%N) =
    Done ((EOK, Some 3%N), []).
Proof.
  assert (Hfit : (ceiling_4k <= SIZE_MAX)%N) by (vm_compute; discriminate).
  assert (Hv3 : valid_max ceiling_4k 3) by valid_4k.
  assert (Hv1 : valid_max ceiling_4k 1) by valid_4k.
  split.
  - apply (proj1 (strcspn_s_empty_buffers ceiling_4k Hfit mem_abc_empty
                    4 3 999 1 7%N Hv3 Hv1)).
    reflexivity.
  - apply (proj2 (strcspn_s_empty_buffers ceiling_4k Hfit mem_abc_empty
                    0 3 4 1 7%N Hv3 Hv1)).
    + reflexivity.
    + vm_compute. lia.
Defined.

(** "HELLO": the run is the five letters, the cell behind it the
    terminator. *)
Lemma strisuppercase_s_return_explained_witness :
  (@nil report = [] /\
   exists d up c rest,
     Ptr 0 = Ptr d /\ valid_max ceiling_4k 5 /\
     view mem_HELLO d = up ++ c :: rest /\
     forallb in_A_Z up = true /\ in_A_Z c = false /\
     true = match up with [] => false | _ :: _ => is_nul c end) \/
  (true = false /\
   (Ptr 0 = NULL \/ ~ valid_max ceiling_4k 5) /\
   exists msg k, @nil report = [(msg, k)]).
Proof.
  apply (strisuppercase_s_return_explained ceiling_4k mem_HELLO (Ptr 0) 5
           true []).
  reflexivity.
Defined.

(** strstr_s finds "abd" at offset 4 of "xABDabd"; strcasestr_s finds it at
    or before that offset (at 1). *)
Lemma strcasestr_s_finds_what_strstr_s_finds_witness :
  exists q',
    0 <= q' <= 4 /\
    strcasestr_s ceiling_4k mem_xABDabd_abd (Ptr 0) 7 (Ptr 8) 3 (Some NULL) =
      Done ((EOK, Some (Ptr q')), []).
Proof.
  apply (strcasestr_s_finds_what_strstr_s_finds ceiling_4k mem_xABDabd_abd
           0 7 8 3 NULL 4 []).
  - valid_4k.
  - valid_4k.
  - reflexivity.
Defined.

(** "world" in "hELLO wORLD" against "WORLD" in "Hello World". *)
Lemma strcasestr_s_case_invariant_witness :
  strcasestr_s ceiling_4k mem_hELLO_wORLD (Ptr 0) 11 (Ptr 12) 5 (Some NULL) =
  strcasestr_s ceiling_4k mem_hello_world (Ptr 0) 11 (Ptr 12) 5 (Some NULL).
Proof.
  apply (strcasestr_s_case_invariant ceiling_4k mem_hello_world
           mem_hELLO_wORLD 0 11 12 5 NULL).
  - valid_4k.
  - valid_4k.
  - reflexivity.
  - reflexivity.
  - vm_compute. lia.
  - vm_compute. lia.
  - vm_compute. lia.
  - vm_compute. lia.
Defined.

(** "abcabd" and "abd" with the lengths 6 and 3, and with 100 and 50. *)
Lemma covered_strings_ignore_lengths_witness :
  strstr_s ceiling_4k mem_abcabd_abd (Ptr 0) 6 (Ptr 7) 3 (Some NULL) =
    strstr_s ceiling_4k mem_abcabd_abd (Ptr 0) 100 (Ptr 7) 50 (Some NULL) /\
  strcasestr_s ceiling_4k mem_abcabd_abd (Ptr 0) 6 (Ptr 7) 3 (Some NULL) =
    strcasestr_s ceiling_4k mem_abcabd_abd (Ptr 0) 100 (Ptr 7) 50 (Some NULL) /\
  strcspn_s ceiling_4k mem_abcabd_abd (Ptr 0) 6 (Ptr 7) 3 (Some 0%N) =
    strcspn_s ceiling_4k mem_abcabd_abd (Ptr 0) 100 (Ptr 7) 50 (Some 0%N).
Proof.
  refine (covered_strings_ignore_lengths ceiling_4k _ mem_abcabd_abd 0 7
            (list_ascii_of_string "abcabd") (cstr "abd")
            (list_ascii_of_string "abd") [] 6 100 3 50 NULL 0%N
            _ _ _ _ _ _ _ _ _ _ _ _).
  - vm_compute. discriminate.
  - reflexivity.
  - reflexivity.
  - reflexivity.
  - reflexivity.
  - valid_4k.
  - valid_4k.
  - valid_4k.
  - valid_4k.
  - vm_compute. lia.
  - vm_compute. lia.
  - vm_compute. lia.
  - vm_compute. lia.
Defined.

(** "ORDER 67" in "ORDER 66, ORDER 67": capitals, digits and punctuation. *)
Lemma strcasestr_s_is_strstr_s_without_lowercase_witness :
  strcasestr_s ceiling_4k mem_ORDER_66 (Ptr 0) 18 (Ptr 19) 8 (Some NULL) =
  strstr_s ceiling_4k mem_ORDER_66 (Ptr 0) 18 (Ptr 19) 8 (Some NULL).
Proof.
  apply (strcasestr_s_is_strstr_s_without_lowercase ceiling_4k mem_ORDER_66
           0 18 19 8 NULL).
  - valid_4k.
  - valid_4k.
  - vm_compute. lia.
  - vm_compute. lia.
  - forall_cells.
  - forall_cells.
Defined.

(** The needles "abcX" and "abcY" under [slen = 3]. *)
Lemma strstr_s_bounded_prefixes_only_witness :
  strstr_s ceiling_4k mem_abcdef_abcY (Ptr 0) 6 (Ptr 7) 3 (Some NULL) =
  strstr_s ceiling_4k mem_abcdef_abcX (Ptr 0) 6 (Ptr 7) 3 (Some NULL).
Proof.
  apply (strstr_s_bounded_prefixes_only ceiling_4k mem_abcdef_abcX
           mem_abcdef_abcY 0 6 7 3 NULL).
  - valid_4k.
  - valid_4k.
  - reflexivity.
  - reflexivity.
  - vm_compute. lia.
  - vm_compute. lia.
  - vm_compute. lia.
  - vm_compute. lia.
Defined.

(** The exclusion strings "abc" and "abcZ" under [slen = 3]. *)
Lemma strcspn_s_bounded_prefixes_only_witness :
  strcspn_s ceiling_4k mem_digits_abcZ (Ptr 0) 8 (Ptr 9) 3 (Some 7%N) =
  strcspn_s ceiling_4k mem_digits_abc (Ptr 0) 8 (Ptr 9) 3 (Some 7%N).
Proof.
  refine (strcspn_s_bounded_prefixes_only ceiling_4k _ mem_digits_abc
            mem_digits_abcZ 0 8 9 3 7%N _ _ _ _ _ _ _ _).
  - vm_compute. discriminate.
  - valid_4k.
  - valid_4k.
  - reflexivity.
  - reflexivity.
  - vm_compute. lia.
  - vm_compute. lia.
  - vm_compute. lia.
  - vm_compute. lia.
Defined.

(** "ABc" with [dmax = 2] and with [dmax = 3]. *)
Lemma strisuppercase_s_ignores_dmax_witness :
  strisuppercase_s ceiling_4k mem_ABc (Ptr 0) 2 =
  strisuppercase_s ceiling_4k mem_ABc (Ptr 0) 3.
Proof.
  apply (strisuppercase_s_ignores_dmax ceiling_4k mem_ABc (Ptr 0) 2 3).
  - valid_4k.
  - valid_4k.
Defined.
